(** * SOLID principle example in python: a shallow embedding

    The source is one Python script that defines, section after section, the
    classes [Bird], [Sparrow], [Penguin], ... again and again, each time in a
    "violating" and an "adhering" variant, and ends with a small example
    ([Flyable], [Singable], [Bird], [Sparrow], [Penguin], [bird_info]).

    Python objects are mutable and shared, so the embedding keeps an explicit
    store: an object is a class tag with its instance dictionary, a heap maps
    addresses to objects, and code runs in a state-and-exception monad over
    the heap.  Every section of the script that rebinds the class names is a
    Rocq module of its own. *)

From Stdlib Require Import Ascii.
From stdpp Require Import gmap strings list fin_maps.

(** ** Texts *)

(** [p in s] of Python, for texts. *)
Fixpoint contains (p s : string) : bool :=
  String.prefix p s ||
  match s with
  | EmptyString => false
  | String _ s' => contains p s'
  end.

(** [s] with its first [n] characters removed: [s[n:]]. *)
Fixpoint drop_string (n : nat) (s : string) : string :=
  match n, s with
  | O, _ => s
  | S n', String _ s' => drop_string n' s'
  | S _, EmptyString => EmptyString
  end.

(** What follows the first occurrence of [a] in [s], if there is one. *)
Fixpoint after_first (a s : string) : option string :=
  if String.prefix a s then Some (drop_string (String.length a) s)
  else match s with
       | EmptyString => None
       | String _ s' => after_first a s'
       end.

(** An occurrence of [b] starts in [s] after the end of an occurrence of [a]. *)
Definition precedesb (a b s : string) : bool :=
  match after_first a s with
  | Some rest => contains b rest
  | None => false
  end.

Definition is_substring (p s : string) : Prop :=
  exists pre post, s = pre +:+ p +:+ post.

Definition precedes (a b s : string) : Prop :=
  exists pre mid post, s = pre +:+ a +:+ mid +:+ b +:+ post.

(** ** Values, exceptions, objects and the heap *)

Definition loc := nat.

(** The values the script handles: texts, [None], references to objects and
    bound methods (what [obj.m] is when [m] is found in the class). *)
Inductive value :=
  | VStr (s : string)
  | VNone
  | VRef (l : loc)
  | VMethod (self : loc) (m : string).

Inductive type_error :=
  | BadArity        (* a call with too few or too many arguments *)
  | AbstractClass   (* instantiating a class with abstract methods *)
  | NotCallable.    (* calling a value that is not a function *)

(** The exceptions the interpreter raises on this script; the script defines
    no exception class and has no [raise] statement.  [SystemError] stands for
    the use of an address that was never allocated, which no Python program
    can reach. *)
Inductive exn :=
  | AttributeError (ty attr : string)
  | TypeError (why : type_error)
  | RecursionError
  | SystemError.

(** [sys.getrecursionlimit()]: the number of calls that may be open at a
    time, 1000 unless the program changes it; the calls already open around
    the code under study are not counted. *)
Definition recursion_limit : nat := 1000.

Inductive result (A : Type) :=
  | Ok (a : A)
  | Raise (e : exn).
Arguments Ok {A} a.
Arguments Raise {A} e.

(** The name of a value's type, as it appears in an [AttributeError]; a bound
    method hands the lookup over to its function, which is what the error
    names. *)
Definition builtin_type_name (v : value) : string :=
  match v with
  | VStr _ => "str"
  | VNone => "NoneType"
  | VRef _ => "object"
  | VMethod _ _ => "function"
  end.

(** [format(v, "")], what an f-string inserts for [{v}].  For a text it is the
    text itself and for [None] it is ["None"]; the text of an object or of a
    bound method contains its address and is kept abstract. *)
Definition py_format (v : value) : string :=
  match v with
  | VStr s => s
  | VNone => "None"
  | VRef _ => "<object>"
  | VMethod _ _ => "<bound method>"
  end.

(** [v == w].  Texts compare by their characters and [None] equals only
    itself; objects and bound methods, which define no [__eq__] here, are
    equal when they are the same object. *)
Definition py_eq (v w : value) : bool :=
  match v, w with
  | VStr s, VStr t => String.eqb s t
  | VNone, VNone => true
  | VRef l, VRef l' => Nat.eqb l l'
  | VMethod l m, VMethod l' m' => Nat.eqb l l' && String.eqb m m'
  | _, _ => false
  end.

Section ObjectModel.
(** The classes of one section of the script. *)
Context {C : Type}.

Record object := Obj { obj_class : C; obj_dict : gmap string value }.

(** State-and-exception monad over the heap. *)
Definition M (A : Type) : Type := gmap loc object -> result A * gmap loc object.

Definition ret {A} (a : A) : M A := fun h => (Ok a, h).

Definition raise {A} (e : exn) : M A := fun h => (Raise e, h).

Definition bind {A B} (m : M A) (k : A -> M B) : M B :=
  fun h =>
    match m h with
    | (Ok a, h') => k a h'
    | (Raise e, h') => (Raise e, h')
    end.

Definition deref (l : loc) : M object :=
  fun h =>
    match h !! l with
    | Some o => (Ok o, h)
    | None => (Raise SystemError, h)
    end.

(** [object.__new__(c)]: a fresh object of class [c] with an empty
    instance dictionary. *)
Definition alloc (c : C) : M loc :=
  fun h => let l := fresh (dom h) in (Ok l, <[l := Obj c ∅]> h).

(** [self.a = v] *)
Definition setattr (l : loc) (a : string) (v : value) : M unit :=
  fun h =>
    match h !! l with
    | Some o => (Ok tt, <[l := Obj (obj_class o) (<[a := v]> (obj_dict o))]> h)
    | None => (Raise SystemError, h)
    end.

(** The class table of the section, first part: the name of each class and
    the methods its body or the bodies of its bases define, [__init__] apart
    (the attributes every object inherits from [object] are not part of the
    model). *)
Variable class_name : C -> string.
Variable class_attr : C -> string -> bool.

(** [obj.a]: the instance dictionary first, then the class. *)
Definition getattr (l : loc) (a : string) : M value :=
  bind (deref l) (fun o =>
    match obj_dict o !! a with
    | Some v => ret v
    | None =>
        if class_attr (obj_class o) a then ret (VMethod l a)
        else raise (AttributeError (class_name (obj_class o)) a)
    end).

(** [v.a] for any value [v]; texts, [None] and bound methods have none of
    the attributes the script asks for. *)
Definition getattr_value (v : value) (a : string) : M value :=
  match v with
  | VRef l => getattr l a
  | _ => raise (AttributeError (builtin_type_name v) a)
  end.

(** Second part: whether a class or one of its bases defines [__init__],
    whether it has abstract methods left, and its [__init__] and its methods
    as the method resolution order finds them. *)
Variable defines_init : C -> bool.
Variable abstract : C -> bool.
Variable init : C -> loc -> list value -> M unit.
Variable methods : C -> string -> option (loc -> M value).

(** [f()], a call without arguments: only bound methods can be called. *)
Definition call (f : value) : M value :=
  match f with
  | VMethod l m =>
      bind (deref l) (fun o =>
        match methods (obj_class o) m with
        | Some body => body l
        | None => raise (AttributeError (class_name (obj_class o)) m)
        end)
  | _ => raise (TypeError NotCallable)
  end.

(** [v.m()] *)
Definition call_method (v : value) (m : string) : M value :=
  bind (getattr_value v m) call.

(** Whether a call passes arguments at all. *)
Definition excess_args (args : list value) : bool :=
  match args with
  | [] => false
  | _ :: _ => true
  end.

(** [c(args)].  [object.__new__] first refuses arguments when the class has
    no [__init__] of its own to take them, then refuses an abstract class,
    then allocates; [__init__] runs on the new object. *)
Definition new (c : C) (args : list value) : M loc :=
  if negb (defines_init c) && excess_args args then raise (TypeError BadArity)
  else if abstract c then raise (TypeError AbstractClass)
  else bind (alloc c) (fun l =>
       bind (init c l args) (fun _ => ret l)).
End ObjectModel.

Arguments object : clear implicits.
Arguments M : clear implicits.

Declare Scope py_scope.
Delimit Scope py_scope with py.
Notation "x <- m ;; k" := (bind m (fun x => k))
  (at level 100, m at next level, right associativity) : py_scope.
Open Scope py_scope.

(** The result of running [m] on heap [h], and the heap it leaves. *)
Definition outcome {C A} (m : M C A) (h : gmap loc (object C)) : result A := fst (m h).
Definition heap_after {C A} (m : M C A) (h : gmap loc (object C)) : gmap loc (object C) :=
  snd (m h).

(** ** The closing example (script lines 239 to 280) *)

Module Solid.

Inductive cls := Flyable | Singable | Bird | Sparrow | Penguin.

Definition class_name (c : cls) : string :=
  match c with
  | Flyable => "Flyable"
  | Singable => "Singable"
  | Bird => "Bird"
  | Sparrow => "Sparrow"
  | Penguin => "Penguin"
  end.

(** [Flyable] and [Singable] declare an abstract method; [Sparrow] overrides
    both [fly] and [sing], and [Penguin], whose only abstract base is
    [Flyable], overrides [fly]. *)
Definition abstract (c : cls) : bool :=
  match c with
  | Flyable | Singable => true
  | Bird | Sparrow | Penguin => false
  end.

(** [Bird.__init__(self, name)] *)
Definition Bird_init (self : loc) (args : list value) : M cls unit :=
  match args with
  | [name] => setattr self "name" name
  | _ => raise (TypeError BadArity)
  end.

(** [object.__init__(self)] *)
Definition object_init (self : loc) (args : list value) : M cls unit :=
  match args with
  | [] => ret tt
  | _ => raise (TypeError BadArity)
  end.

(** Whether the class has an [__init__] other than that of [object]. *)
Definition defines_init (c : cls) : bool :=
  match c with
  | Flyable | Singable => false
  | Bird | Sparrow | Penguin => true
  end.

Definition init (c : cls) : loc -> list value -> M cls unit :=
  match c with
  | Flyable | Singable => object_init
  | Bird | Sparrow | Penguin => Bird_init
  end.

(** The methods each class body defines, bases included. *)
Definition class_attr (c : cls) (a : string) : bool :=
  match c with
  | Flyable => String.eqb a "fly"
  | Singable => String.eqb a "sing"
  | Bird => false
  | Sparrow => String.eqb a "fly" || String.eqb a "sing"
  | Penguin => String.eqb a "fly"
  end.

Definition getattr : loc -> string -> M cls value :=
  getattr class_name class_attr.

(** The bodies of the abstract methods are [pass]. *)
Definition Flyable_fly (self : loc) : M cls value := ret VNone.

Definition Singable_sing (self : loc) : M cls value := ret VNone.

Definition Sparrow_fly (self : loc) : M cls value :=
  name <- getattr self "name";;
  ret (VStr (py_format name +:+ " is flying.")).

Definition Sparrow_sing (self : loc) : M cls value :=
  name <- getattr self "name";;
  ret (VStr (py_format name +:+ " is singing.")).

Definition Penguin_fly (self : loc) : M cls value :=
  name <- getattr self "name";;
  ret (VStr (py_format name +:+ " can't fly.")).

(** Method resolution: [Sparrow(Bird, Flyable, Singable)] and
    [Penguin(Bird, Flyable)] find their own definitions first. *)
Definition methods (c : cls) (m : string) : option (loc -> M cls value) :=
  match c with
  | Flyable => if String.eqb m "fly" then Some Flyable_fly else None
  | Singable => if String.eqb m "sing" then Some Singable_sing else None
  | Bird => None
  | Sparrow =>
      if String.eqb m "fly" then Some Sparrow_fly
      else if String.eqb m "sing" then Some Sparrow_sing
      else None
  | Penguin => if String.eqb m "fly" then Some Penguin_fly else None
  end.

Definition call_method : value -> string -> M cls value :=
  call_method class_name class_attr methods.

Definition new : cls -> list value -> M cls loc := new defines_init abstract init.

(** [bird_info(bird)]: the f-string evaluates [bird.name], [bird.sing()]
    and [bird.fly()] from left to right. *)
Definition bird_info (bird : value) : M cls value :=
  name <- getattr_value class_name class_attr bird "name";;
  s <- call_method bird "sing";;
  f <- call_method bird "fly";;
  ret (VStr (py_format name +:+ " says: " +:+ py_format s +:+ " and " +:+ py_format f)).

(** The usage lines: [sparrow = Sparrow("Sparrow")],
    [penguin = Penguin("Penguin")], then the two texts handed to [print]. *)
Definition usage : M cls (value * value) :=
  sparrow <- new Sparrow [VStr "Sparrow"];;
  penguin <- new Penguin [VStr "Penguin"];;
  line1 <- bird_info (VRef sparrow);;
  line2 <- bird_info (VRef penguin);;
  ret (line1, line2).

End Solid.

(** ** Open-closed principle, violating variant (script lines 86 to 99) *)

Module OCP_violating.

Inductive cls := Bird.

Definition class_name (c : cls) : string := "Bird".

Definition class_attr (c : cls) (a : string) : bool := String.eqb a "describe".

Definition abstract (c : cls) : bool := false.

Definition getattr : loc -> string -> M cls value :=
  getattr class_name class_attr.

(** [Bird.__init__(self, name, species)] *)
Definition Bird_init (self : loc) (args : list value) : M cls unit :=
  match args with
  | [name; species] =>
      _ <- setattr self "name" name;;
      setattr self "species" species
  | _ => raise (TypeError BadArity)
  end.

(** Whether the class has an [__init__] other than that of [object]. *)
Definition defines_init (c : cls) : bool := true.

Definition init (c : cls) : loc -> list value -> M cls unit := Bird_init.

(** [Bird.describe(self)]: each test reads [self.species] again. *)
Definition Bird_describe (self : loc) : M cls value :=
  species <- getattr self "species";;
  if py_eq species (VStr "sparrow") then
    name <- getattr self "name";;
    ret (VStr (py_format name +:+ " is a sparrow."))
  else
    species <- getattr self "species";;
    if py_eq species (VStr "penguin") then
      name <- getattr self "name";;
      ret (VStr (py_format name +:+ " is a penguin."))
    else
      species <- getattr self "species";;
      if py_eq species (VStr "ostrich") then
        name <- getattr self "name";;
        ret (VStr (py_format name +:+ " is an ostrich."))
      else
        name <- getattr self "name";;
        ret (VStr (py_format name +:+ " is an unknown bird.")).

Definition methods (c : cls) (m : string) : option (loc -> M cls value) :=
  if String.eqb m "describe" then Some Bird_describe else None.

Definition call_method : value -> string -> M cls value :=
  call_method class_name class_attr methods.

Definition new : cls -> list value -> M cls loc := new defines_init abstract init.

End OCP_violating.

(** ** Liskov substitution principle, adhering variant (lines 107 to 120) *)

Module LSP_adhering.

Inductive cls := Bird | Sparrow | Penguin.

Definition class_name (c : cls) : string :=
  match c with
  | Bird => "Bird"
  | Sparrow => "Sparrow"
  | Penguin => "Penguin"
  end.

(** [Bird] defines [move]; both subclasses override it. *)
Definition class_attr (c : cls) (a : string) : bool := String.eqb a "move".

Definition abstract (c : cls) : bool := false.

Definition getattr : loc -> string -> M cls value :=
  getattr class_name class_attr.

(** [Bird.__init__(self, name)] *)
Definition Bird_init (self : loc) (args : list value) : M cls unit :=
  match args with
  | [name] => setattr self "name" name
  | _ => raise (TypeError BadArity)
  end.

(** Whether the class has an [__init__] other than that of [object]. *)
Definition defines_init (c : cls) : bool := true.

Definition init (c : cls) : loc -> list value -> M cls unit := Bird_init.

(** [Bird.move] is [pass]: it returns [None]. *)
Definition Bird_move (self : loc) : M cls value := ret VNone.

Definition Sparrow_move (self : loc) : M cls value :=
  name <- getattr self "name";;
  ret (VStr (py_format name +:+ " is flying.")).

Definition Penguin_move (self : loc) : M cls value :=
  name <- getattr self "name";;
  ret (VStr (py_format name +:+ " is swimming.")).

Definition methods (c : cls) (m : string) : option (loc -> M cls value) :=
  if String.eqb m "move" then
    Some match c with
         | Bird => Bird_move
         | Sparrow => Sparrow_move
         | Penguin => Penguin_move
         end
  else None.

Definition call_method : value -> string -> M cls value :=
  call_method class_name class_attr methods.

Definition new : cls -> list value -> M cls loc := new defines_init abstract init.

End LSP_adhering.

(** ** Liskov substitution principle, violating variant (lines 125 to 134) *)

Module LSP_violating.

Inductive cls := Bird.

Definition class_name (c : cls) : string := "Bird".

Definition class_attr (c : cls) (a : string) : bool := String.eqb a "move".

Definition abstract (c : cls) : bool := false.

Definition getattr : loc -> string -> M cls value :=
  getattr class_name class_attr.

(** [Bird.__init__(self, name, ability)] *)
Definition Bird_init (self : loc) (args : list value) : M cls unit :=
  match args with
  | [name; ability] =>
      _ <- setattr self "name" name;;
      setattr self "ability" ability
  | _ => raise (TypeError BadArity)
  end.

(** Whether the class has an [__init__] other than that of [object]. *)
Definition defines_init (c : cls) : bool := true.

Definition init (c : cls) : loc -> list value -> M cls unit := Bird_init.

(** [Bird.move(self)]: there is no [else], so the method falls off its end
    and returns [None] when neither test holds. *)
Definition Bird_move (self : loc) : M cls value :=
  ability <- getattr self "ability";;
  if py_eq ability (VStr "flying") then
    name <- getattr self "name";;
    ret (VStr (py_format name +:+ " is flying."))
  else
    ability <- getattr self "ability";;
    if py_eq ability (VStr "swimming") then
      name <- getattr self "name";;
      ret (VStr (py_format name +:+ " is swimming."))
    else ret VNone.

Definition methods (c : cls) (m : string) : option (loc -> M cls value) :=
  if String.eqb m "move" then Some Bird_move else None.

Definition call_method : value -> string -> M cls value :=
  call_method class_name class_attr methods.

Definition new : cls -> list value -> M cls loc := new defines_init abstract init.

End LSP_violating.

(** ** Interface segregation principle, adhering variant (lines 145 to 165) *)

Module ISP_adhering.

Inductive cls := Bird | Flyable | Swimmable | Sparrow | Penguin.

Definition class_name (c : cls) : string :=
  match c with
  | Bird => "Bird"
  | Flyable => "Flyable"
  | Swimmable => "Swimmable"
  | Sparrow => "Sparrow"
  | Penguin => "Penguin"
  end.

(** [Sparrow(Bird, Flyable)] has [fly], [Penguin(Bird, Swimmable)] has
    [swim]. *)
Definition class_attr (c : cls) (a : string) : bool :=
  match c with
  | Bird => false
  | Flyable | Sparrow => String.eqb a "fly"
  | Swimmable | Penguin => String.eqb a "swim"
  end.

(** [Bird(ABC)] declares no abstract method, the two interfaces do. *)
Definition abstract (c : cls) : bool :=
  match c with
  | Flyable | Swimmable => true
  | Bird | Sparrow | Penguin => false
  end.

Definition getattr : loc -> string -> M cls value :=
  getattr class_name class_attr.

(** [Bird.__init__(self, name)] *)
Definition Bird_init (self : loc) (args : list value) : M cls unit :=
  match args with
  | [name] => setattr self "name" name
  | _ => raise (TypeError BadArity)
  end.

(** [object.__init__(self)] *)
Definition object_init (self : loc) (args : list value) : M cls unit :=
  match args with
  | [] => ret tt
  | _ => raise (TypeError BadArity)
  end.

(** Whether the class has an [__init__] other than that of [object]. *)
Definition defines_init (c : cls) : bool :=
  match c with
  | Flyable | Swimmable => false
  | Bird | Sparrow | Penguin => true
  end.

Definition init (c : cls) : loc -> list value -> M cls unit :=
  match c with
  | Flyable | Swimmable => object_init
  | Bird | Sparrow | Penguin => Bird_init
  end.

Definition Flyable_fly (self : loc) : M cls value := ret VNone.

Definition Swimmable_swim (self : loc) : M cls value := ret VNone.

Definition Sparrow_fly (self : loc) : M cls value :=
  name <- getattr self "name";;
  ret (VStr (py_format name +:+ " is flying.")).

Definition Penguin_swim (self : loc) : M cls value :=
  name <- getattr self "name";;
  ret (VStr (py_format name +:+ " is swimming.")).

Definition methods (c : cls) (m : string) : option (loc -> M cls value) :=
  match c with
  | Bird => None
  | Flyable => if String.eqb m "fly" then Some Flyable_fly else None
  | Swimmable => if String.eqb m "swim" then Some Swimmable_swim else None
  | Sparrow => if String.eqb m "fly" then Some Sparrow_fly else None
  | Penguin => if String.eqb m "swim" then Some Penguin_swim else None
  end.

Definition call_method : value -> string -> M cls value :=
  call_method class_name class_attr methods.

Definition new : cls -> list value -> M cls loc := new defines_init abstract init.

End ISP_adhering.

(** ** Dependency inversion principle, adhering variant (lines 188 to 209) *)

Module DIP_adhering.

Inductive cls := Bird | BirdController | Sparrow | Penguin.

Definition class_name (c : cls) : string :=
  match c with
  | Bird => "Bird"
  | BirdController => "BirdController"
  | Sparrow => "Sparrow"
  | Penguin => "Penguin"
  end.

Definition class_attr (c : cls) (a : string) : bool :=
  match c with
  | BirdController => String.eqb a "make_move"
  | Bird | Sparrow | Penguin => String.eqb a "move"
  end.

(** [Bird(ABC)] declares [move] abstract; the subclasses override it. *)
Definition abstract (c : cls) : bool :=
  match c with
  | Bird => true
  | BirdController | Sparrow | Penguin => false
  end.

Definition getattr : loc -> string -> M cls value :=
  getattr class_name class_attr.

(** [Bird.__init__(self, name)] *)
Definition Bird_init (self : loc) (args : list value) : M cls unit :=
  match args with
  | [name] => setattr self "name" name
  | _ => raise (TypeError BadArity)
  end.

(** [BirdController.__init__(self, bird)] *)
Definition BirdController_init (self : loc) (args : list value) : M cls unit :=
  match args with
  | [bird] => setattr self "bird" bird
  | _ => raise (TypeError BadArity)
  end.

(** Whether the class has an [__init__] other than that of [object]. *)
Definition defines_init (c : cls) : bool := true.

Definition init (c : cls) : loc -> list value -> M cls unit :=
  match c with
  | BirdController => BirdController_init
  | Bird | Sparrow | Penguin => Bird_init
  end.

Definition Bird_move (self : loc) : M cls value := ret VNone.

Definition Sparrow_move (self : loc) : M cls value :=
  name <- getattr self "name";;
  ret (VStr (py_format name +:+ " is flying.")).

Definition Penguin_move (self : loc) : M cls value :=
  name <- getattr self "name";;
  ret (VStr (py_format name +:+ " is swimming.")).

(** [BirdController.make_move(self)]: [self.bird.move()].  What [move] is
    found by is the method table of the section as it stands one call deeper,
    [callee]. *)
Definition BirdController_make_move
    (callee : cls -> string -> option (loc -> M cls value)) (self : loc)
    : M cls value :=
  bird <- getattr self "bird";;
  call_method class_name class_attr callee bird "move".

(** The method table when [depth] more calls may be opened: with none left,
    calling any method raises [RecursionError]. *)
Fixpoint methods_at (depth : nat) (c : cls) (m : string)
    : option (loc -> M cls value) :=
  match depth with
  | O => if class_attr c m then Some (fun _ => raise RecursionError) else None
  | S d =>
      match c with
      | BirdController =>
          if String.eqb m "make_move"
          then Some (BirdController_make_move (methods_at d))
          else None
      | Bird => if String.eqb m "move" then Some Bird_move else None
      | Sparrow => if String.eqb m "move" then Some Sparrow_move else None
      | Penguin => if String.eqb m "move" then Some Penguin_move else None
      end
  end.

Definition methods : cls -> string -> option (loc -> M cls value) :=
  methods_at recursion_limit.

Definition call_method : value -> string -> M cls value :=
  call_method class_name class_attr methods.

Definition new : cls -> list value -> M cls loc := new defines_init abstract init.

End DIP_adhering.

(** ** Dependency inversion principle, violating variant (lines 214 to 234) *)

Module DIP_violating.

Inductive cls := Bird | BirdController | Sparrow | Penguin.

Definition class_name (c : cls) : string :=
  match c with
  | Bird => "Bird"
  | BirdController => "BirdController"
  | Sparrow => "Sparrow"
  | Penguin => "Penguin"
  end.

Definition class_attr (c : cls) (a : string) : bool :=
  match c with
  | BirdController => String.eqb a "make_move"
  | Bird | Sparrow | Penguin => String.eqb a "move"
  end.

(** Here [Bird] is an ordinary class. *)
Definition abstract (c : cls) : bool := false.

Definition getattr : loc -> string -> M cls value :=
  getattr class_name class_attr.

(** [Bird.__init__(self, name)] *)
Definition Bird_init (self : loc) (args : list value) : M cls unit :=
  match args with
  | [name] => setattr self "name" name
  | _ => raise (TypeError BadArity)
  end.

(** [BirdController.__init__(self, bird)] *)
Definition BirdController_init (self : loc) (args : list value) : M cls unit :=
  match args with
  | [bird] => setattr self "bird" bird
  | _ => raise (TypeError BadArity)
  end.

(** Whether the class has an [__init__] other than that of [object]. *)
Definition defines_init (c : cls) : bool := true.

Definition init (c : cls) : loc -> list value -> M cls unit :=
  match c with
  | BirdController => BirdController_init
  | Bird | Sparrow | Penguin => Bird_init
  end.

(** [Bird.move] is [pass]. *)
Definition Bird_move (self : loc) : M cls value := ret VNone.

Definition Sparrow_move (self : loc) : M cls value :=
  name <- getattr self "name";;
  ret (VStr (py_format name +:+ " is flying.")).

Definition Penguin_move (self : loc) : M cls value :=
  name <- getattr self "name";;
  ret (VStr (py_format name +:+ " is swimming.")).

(** [BirdController.make_move(self)]: [self.bird.move()].  What [move] is
    found by is the method table of the section as it stands one call deeper,
    [callee]. *)
Definition BirdController_make_move
    (callee : cls -> string -> option (loc -> M cls value)) (self : loc)
    : M cls value :=
  bird <- getattr self "bird";;
  call_method class_name class_attr callee bird "move".

(** The method table when [depth] more calls may be opened: with none left,
    calling any method raises [RecursionError]. *)
Fixpoint methods_at (depth : nat) (c : cls) (m : string)
    : option (loc -> M cls value) :=
  match depth with
  | O => if class_attr c m then Some (fun _ => raise RecursionError) else None
  | S d =>
      match c with
      | BirdController =>
          if String.eqb m "make_move"
          then Some (BirdController_make_move (methods_at d))
          else None
      | Bird => if String.eqb m "move" then Some Bird_move else None
      | Sparrow => if String.eqb m "move" then Some Sparrow_move else None
      | Penguin => if String.eqb m "move" then Some Penguin_move else None
      end
  end.

Definition methods : cls -> string -> option (loc -> M cls value) :=
  methods_at recursion_limit.

Definition call_method : value -> string -> M cls value :=
  call_method class_name class_attr methods.

Definition new : cls -> list value -> M cls loc := new defines_init abstract init.

End DIP_violating.

(** ** Calls that pass arguments *)

Section Calls.
Context {C : Type}.
Variable class_name : C -> string.
Variable class_attr : C -> string -> bool.
Variable methods_with : C -> string -> option (loc -> list value -> M C value).

(** [f(args)]: as [call], for methods that take arguments. *)
Definition call_with (f : value) (args : list value) : M C value :=
  match f with
  | VMethod l m =>
      bind (deref l) (fun o =>
        match methods_with (obj_class o) m with
        | Some body => body l args
        | None => raise (AttributeError (class_name (obj_class o)) m)
        end)
  | _ => raise (TypeError NotCallable)
  end.

(** [v.m(args)] *)
Definition call_method_with (v : value) (m : string) (args : list value) : M C value :=
  bind (getattr_value class_name class_attr v m) (fun f => call_with f args).
End Calls.

(** ** Single responsibility principle, adhering variant (lines 23 to 33) *)

Module SRP_adhering.

Inductive cls := Bird | BirdSound | BirdMovement.

Definition class_name (c : cls) : string :=
  match c with
  | Bird => "Bird"
  | BirdSound => "BirdSound"
  | BirdMovement => "BirdMovement"
  end.

Definition class_attr (c : cls) (a : string) : bool :=
  match c with
  | Bird => false
  | BirdSound => String.eqb a "make_sound"
  | BirdMovement => String.eqb a "move"
  end.

Definition abstract (c : cls) : bool := false.

(** [Bird.__init__(self, name)] *)
Definition Bird_init (self : loc) (args : list value) : M cls unit :=
  match args with
  | [name] => setattr self "name" name
  | _ => raise (TypeError BadArity)
  end.

(** [BirdSound] and [BirdMovement] define no [__init__]: they take no
    argument. *)
Definition object_init (self : loc) (args : list value) : M cls unit :=
  match args with
  | [] => ret tt
  | _ => raise (TypeError BadArity)
  end.

(** Whether the class has an [__init__] other than that of [object]. *)
Definition defines_init (c : cls) : bool :=
  match c with
  | Bird => true
  | BirdSound | BirdMovement => false
  end.

Definition init (c : cls) : loc -> list value -> M cls unit :=
  match c with
  | Bird => Bird_init
  | BirdSound | BirdMovement => object_init
  end.

(** [BirdSound.make_sound(self, bird)]: [pass] *)
Definition BirdSound_make_sound (self : loc) (args : list value) : M cls value :=
  match args with
  | [bird] => ret VNone
  | _ => raise (TypeError BadArity)
  end.

(** [BirdMovement.move(self, bird)]: [pass] *)
Definition BirdMovement_move (self : loc) (args : list value) : M cls value :=
  match args with
  | [bird] => ret VNone
  | _ => raise (TypeError BadArity)
  end.

Definition methods (c : cls) (m : string)
    : option (loc -> list value -> M cls value) :=
  match c with
  | Bird => None
  | BirdSound => if String.eqb m "make_sound" then Some BirdSound_make_sound else None
  | BirdMovement => if String.eqb m "move" then Some BirdMovement_move else None
  end.

Definition call_method_with : value -> string -> list value -> M cls value :=
  call_method_with class_name class_attr methods.

Definition new : cls -> list value -> M cls loc := new defines_init abstract init.

End SRP_adhering.

(** ** Single responsibility principle, violating variant (lines 41 to 49) *)

Module SRP_violating.

Inductive cls : Set := Bird.

Definition class_name (c : cls) : string := "Bird".

Definition class_attr (c : cls) (a : string) : bool :=
  String.eqb a "make_sound" || String.eqb a "move".

Definition abstract (c : cls) : bool := false.

(** [Bird.__init__(self, name)] *)
Definition Bird_init (self : loc) (args : list value) : M cls unit :=
  match args with
  | [name] => setattr self "name" name
  | _ => raise (TypeError BadArity)
  end.

(** Whether the class has an [__init__] other than that of [object]. *)
Definition defines_init (c : cls) : bool := true.

Definition init (c : cls) : loc -> list value -> M cls unit := Bird_init.

(** [Bird.make_sound(self)] and [Bird.move(self)]: [pass] *)
Definition Bird_make_sound (self : loc) : M cls value := ret VNone.

Definition Bird_move (self : loc) : M cls value := ret VNone.

Definition methods (c : cls) (m : string) : option (loc -> M cls value) :=
  if String.eqb m "make_sound" then Some Bird_make_sound
  else if String.eqb m "move" then Some Bird_move
  else None.

Definition call_method : value -> string -> M cls value :=
  call_method class_name class_attr methods.

Definition new : cls -> list value -> M cls loc := new defines_init abstract init.

End SRP_violating.

(** ** Open-closed principle, adhering variant (lines 63 to 81) *)

Module OCP_adhering.

Inductive cls := Bird | Sparrow | Penguin | Ostrich.

Definition class_name (c : cls) : string :=
  match c with
  | Bird => "Bird"
  | Sparrow => "Sparrow"
  | Penguin => "Penguin"
  | Ostrich => "Ostrich"
  end.

Definition class_attr (c : cls) (a : string) : bool := String.eqb a "describe".

(** [Bird(ABC)] declares [describe] abstract; each subclass overrides it. *)
Definition abstract (c : cls) : bool :=
  match c with
  | Bird => true
  | Sparrow | Penguin | Ostrich => false
  end.

Definition getattr : loc -> string -> M cls value :=
  getattr class_name class_attr.

(** [Bird.__init__(self, name)] *)
Definition Bird_init (self : loc) (args : list value) : M cls unit :=
  match args with
  | [name] => setattr self "name" name
  | _ => raise (TypeError BadArity)
  end.

(** Whether the class has an [__init__] other than that of [object]. *)
Definition defines_init (c : cls) : bool := true.

Definition init (c : cls) : loc -> list value -> M cls unit := Bird_init.

(** The abstract [Bird.describe] is [pass]. *)
Definition Bird_describe (self : loc) : M cls value := ret VNone.

Definition Sparrow_describe (self : loc) : M cls value :=
  name <- getattr self "name";;
  ret (VStr (py_format name +:+ " is a sparrow.")).

Definition Penguin_describe (self : loc) : M cls value :=
  name <- getattr self "name";;
  ret (VStr (py_format name +:+ " is a penguin.")).

Definition Ostrich_describe (self : loc) : M cls value :=
  name <- getattr self "name";;
  ret (VStr (py_format name +:+ " is an ostrich.")).

Definition methods (c : cls) (m : string) : option (loc -> M cls value) :=
  if String.eqb m "describe" then
    Some match c with
         | Bird => Bird_describe
         | Sparrow => Sparrow_describe
         | Penguin => Penguin_describe
         | Ostrich => Ostrich_describe
         end
  else None.

Definition call_method : value -> string -> M cls value :=
  call_method class_name class_attr methods.

Definition new : cls -> list value -> M cls loc := new defines_init abstract init.

End OCP_adhering.

(** ** Interface segregation principle, violating variant (lines 172 to 178) *)

Module ISP_violating.

Inductive cls : Set := Bird.

Definition class_name (c : cls) : string := "Bird".

Definition class_attr (c : cls) (a : string) : bool := String.eqb a "move".

(** [Bird(ABC)] declares [move] abstract and the section has no subclass. *)
Definition abstract (c : cls) : bool := true.

(** [Bird.__init__(self, name)] *)
Definition Bird_init (self : loc) (args : list value) : M cls unit :=
  match args with
  | [name] => setattr self "name" name
  | _ => raise (TypeError BadArity)
  end.

(** Whether the class has an [__init__] other than that of [object]. *)
Definition defines_init (c : cls) : bool := true.

Definition init (c : cls) : loc -> list value -> M cls unit := Bird_init.

Definition new : cls -> list value -> M cls loc := new defines_init abstract init.

End ISP_violating.

(** ** Vocabulary of the statements *)

(** A computation that leaves every heap as it found it. *)
Definition pure {C A} (m : M C A) : Prop := forall h, heap_after m h = h.

(** What [Bird.__init__(self, name)] makes of a fresh object of class [c]. *)
Definition entity {C} (c : C) (name : value) : object C :=
  Obj c {[ "name" := name ]}.

(** A result that is a text, not empty, in which [n] occurs. *)
Definition named_text (n : string) (r : result value) : Prop :=
  exists s, r = Ok (VStr s) /\ s <> "" /\ contains n s = true.

(** The operations of the closing example on an entity: the dispatcher and the
    two capability operations. *)
Inductive operation := Describe | Fly | Sing.

Definition run_op (op : operation) (bird : value) : M Solid.cls value :=
  match op with
  | Describe => Solid.bird_info bird
  | Fly => Solid.call_method bird "fly"
  | Sing => Solid.call_method bird "sing"
  end.

(** The class of the violating variant that the same [class] statement
    defines in the adhering variant of the dependency inversion section. *)
Definition DIP_same_class (c : DIP_adhering.cls) : DIP_violating.cls :=
  match c with
  | DIP_adhering.Bird => DIP_violating.Bird
  | DIP_adhering.BirdController => DIP_violating.BirdController
  | DIP_adhering.Sparrow => DIP_violating.Sparrow
  | DIP_adhering.Penguin => DIP_violating.Penguin
  end.

(** * Properties *)

(** ** Texts *)

Section Texts.
Implicit Types (a b p q s t u : string) (c : ascii).

Lemma append_cons c s t : String c s +:+ t = String c (s +:+ t).
Proof. reflexivity. Qed.

Lemma append_nil_r s : s +:+ "" = s.
Proof. induction s as [|c s IH]; [done|]. by rewrite append_cons, IH. Qed.

Lemma append_assoc s t u : (s +:+ t) +:+ u = s +:+ t +:+ u.
Proof. induction s as [|c s IH]; [done|]. by rewrite !append_cons, IH. Qed.

Lemma append_nonempty s t : t <> "" -> s +:+ t <> "".
Proof. destruct s; [done|]. by rewrite append_cons. Qed.

Lemma prefix_append p q : String.prefix p (p +:+ q) = true.
Proof.
  induction p as [|c p IH]; [by destruct q|].
  rewrite append_cons. simpl. by destruct (ascii_dec c c).
Qed.

Lemma prefix_split p s :
  String.prefix p s = true -> s = p +:+ drop_string (String.length p) s.
Proof.
  revert s. induction p as [|c p IH]; intros [|c' s] Hp; simpl in *; try done.
  destruct (ascii_dec c c'); [subst|done].
  by rewrite append_cons, <- IH.
Qed.

Lemma contains_nil p : contains p "" = String.prefix p "".
Proof. unfold contains. apply orb_false_r. Qed.

Lemma contains_cons p c s :
  contains p (String c s) = String.prefix p (String c s) || contains p s.
Proof. reflexivity. Qed.

Lemma after_first_cons a c s :
  after_first a (String c s)
  = if String.prefix a (String c s)
    then Some (drop_string (String.length a) (String c s))
    else after_first a s.
Proof. reflexivity. Qed.

Lemma contains_prefix p s : String.prefix p s = true -> contains p s = true.
Proof.
  intros H. destruct s; [by rewrite contains_nil|].
  by rewrite contains_cons, H.
Qed.

Lemma after_first_prefix a s :
  String.prefix a s = true ->
  after_first a s = Some (drop_string (String.length a) s).
Proof.
  intros H. destruct s; [unfold after_first; by rewrite H|].
  by rewrite after_first_cons, H.
Qed.

Lemma contains_append pre p post : contains p (pre +:+ p +:+ post) = true.
Proof.
  induction pre as [|c pre IH].
  - change ("" +:+ p +:+ post) with (p +:+ post).
    apply contains_prefix, prefix_append.
  - rewrite append_cons, contains_cons, IH. apply orb_true_r.
Qed.

Lemma contains_is_substring p s : contains p s = true <-> is_substring p s.
Proof.
  split.
  - induction s as [|c s IH]; intros H.
    + rewrite contains_nil in H.
      exists "", (drop_string (String.length p) ""). by apply prefix_split.
    + rewrite contains_cons in H. apply orb_true_iff in H as [H|H].
      * exists "", (drop_string (String.length p) (String c s)).
        by apply prefix_split.
      * destruct (IH H) as (pre & post & ->).
        by exists (String c pre), post.
  - intros (pre & post & ->). apply contains_append.
Qed.

(** Two ways of cutting one text: the shorter head is a head of the other. *)
Lemma append_eq_append a q x t :
  a +:+ q = x +:+ t -> String.length a <= String.length x ->
  exists u, q = u +:+ t.
Proof.
  revert x. induction a as [|c a IH]; intros x E Hlen.
  - by exists x.
  - destruct x as [|c' x]; simpl in Hlen; [lia|].
    rewrite !append_cons in E. injection E as _ E.
    apply (IH x); [done|lia].
Qed.

Lemma length_append s t :
  String.length (s +:+ t) = String.length s + String.length t.
Proof. induction s as [|c s IH]; [done|]. rewrite append_cons. simpl. by rewrite IH. Qed.

Lemma after_first_append pre a t :
  exists u, after_first a (pre +:+ a +:+ t) = Some (u +:+ t).
Proof.
  induction pre as [|c pre IH].
  - exists "". change ("" +:+ a +:+ t) with (a +:+ t).
    rewrite (after_first_prefix _ _ (prefix_append a t)). f_equal.
    pose proof (prefix_split a (a +:+ t) (prefix_append a t)) as Hs.
    by apply (inj (String.app a)) in Hs.
  - rewrite append_cons, after_first_cons.
    destruct (String.prefix a (String c (pre +:+ a +:+ t))) eqn:Hp; [|done].
    apply prefix_split in Hp.
    assert (E : String c (pre +:+ a +:+ t) = (String c pre +:+ a) +:+ t).
    { by rewrite append_assoc, append_cons. }
    rewrite E in Hp at 1. symmetry in Hp.
    apply append_eq_append in Hp as [u Hu]; [|rewrite length_append; lia].
    exists u. by rewrite Hu.
Qed.

Lemma precedes_precedesb a b s : precedes a b s -> precedesb a b s = true.
Proof.
  intros (pre & mid & post & ->). unfold precedesb.
  destruct (after_first_append pre a (mid +:+ b +:+ post)) as [u ->].
  rewrite <- (append_assoc u mid). apply contains_append.
Qed.
End Texts.

(** ** The monad and the object model *)

Section ObjectModelFacts.
Context {C : Type}.
Variable class_name : C -> string.
Variable class_attr : C -> string -> bool.
Variable defines_init : C -> bool.
Variable abstract : C -> bool.
Variable init : C -> loc -> list value -> M C unit.
Variable methods : C -> string -> option (loc -> M C value).

Lemma pure_run {A} (m : M C A) h : pure m -> m h = (outcome m h, h).
Proof.
  intros Hm. specialize (Hm h). unfold heap_after, outcome in *.
  destruct (m h). simpl in *. by subst.
Qed.

Lemma pure_ret {A} (a : A) : pure (C := C) (ret a).
Proof. by intros h. Qed.

Lemma pure_raise {A} e : pure (C := C) (A := A) (raise e).
Proof. by intros h. Qed.

Lemma pure_bind {A B} (m : M C A) (k : A -> M C B) :
  pure m -> (forall a, pure (k a)) -> pure (bind m k).
Proof.
  intros Hm Hk h. unfold heap_after, bind. rewrite (pure_run m h Hm).
  destruct (outcome m h); [apply Hk|done].
Qed.

Lemma bind_pure {A B} (m : M C A) (k : A -> M C B) h :
  pure m ->
  bind m k h = match outcome m h with
               | Ok a => k a h
               | Raise e => (Raise e, h)
               end.
Proof. intros Hm. unfold bind. by rewrite (pure_run m h Hm). Qed.

Lemma pure_deref l : pure (C := C) (deref l).
Proof. intros h. unfold heap_after, deref. by destruct (h !! l). Qed.

Lemma pure_getattr l a : pure (getattr class_name class_attr l a).
Proof.
  apply pure_bind; [apply pure_deref|]. intros o.
  destruct (obj_dict o !! a); [apply pure_ret|].
  destruct (class_attr (obj_class o) a); [apply pure_ret|apply pure_raise].
Qed.

Lemma pure_getattr_value v a : pure (getattr_value class_name class_attr v a).
Proof. destruct v; try apply pure_raise. apply pure_getattr. Qed.

Hypothesis methods_pure :
  forall c m body l, methods c m = Some body -> pure (body l).

Lemma pure_call f : pure (call class_name methods f).
Proof.
  destruct f; try apply pure_raise.
  apply pure_bind; [apply pure_deref|]. intros o.
  destruct (methods (obj_class o) m) eqn:E; [|apply pure_raise].
  by apply (methods_pure _ _ _ _ E).
Qed.

Lemma pure_call_method v m : pure (call_method class_name class_attr methods v m).
Proof. apply pure_bind; [apply pure_getattr_value|apply pure_call]. Qed.
End ObjectModelFacts.

Section ObjectModelRuns.
Context {C : Type}.
Variable class_name : C -> string.
Variable class_attr : C -> string -> bool.
Variable defines_init : C -> bool.
Variable abstract : C -> bool.
Variable init : C -> loc -> list value -> M C unit.
Variable methods : C -> string -> option (loc -> M C value).
Implicit Types (h : gmap loc (object C)) (d : gmap string value).

Lemma getattr_dict h l c d a v :
  h !! l = Some (Obj c d) -> d !! a = Some v ->
  getattr class_name class_attr l a h = (Ok v, h).
Proof. intros Hl Ha. unfold getattr, bind, deref. rewrite Hl. simpl. by rewrite Ha. Qed.

Lemma getattr_name h l c v :
  h !! l = Some (entity c v) ->
  getattr class_name class_attr l "name" h = (Ok v, h).
Proof. intros Hl. by apply (getattr_dict h l c _ "name" v Hl). Qed.

Lemma call_method_found h l c d m body :
  h !! l = Some (Obj c d) -> d !! m = None ->
  class_attr c m = true -> methods c m = Some body ->
  call_method class_name class_attr methods (VRef l) m h = body l h.
Proof.
  intros Hl Hd Ha Hm. unfold call_method, bind at 1. simpl.
  unfold getattr, bind, deref. rewrite Hl. simpl. rewrite Hd, Ha. simpl.
  unfold bind, deref. rewrite Hl. simpl. by rewrite Hm.
Qed.

Lemma call_method_missing h l c d m :
  h !! l = Some (Obj c d) -> d !! m = None -> class_attr c m = false ->
  call_method class_name class_attr methods (VRef l) m h
  = (Raise (AttributeError (class_name c) m), h).
Proof.
  intros Hl Hd Ha. unfold call_method, bind at 1. simpl.
  unfold getattr, bind, deref. rewrite Hl. simpl. by rewrite Hd, Ha.
Qed.

(** A constructor whose [__init__] stores its arguments under the keys of [d]. *)
Lemma new_stores c args d h :
  negb (defines_init c) && excess_args args = false ->
  abstract c = false ->
  (forall l h', h' !! l = Some (Obj c ∅) ->
                init c l args h' = (Ok tt, <[l := Obj c d]> h')) ->
  new defines_init abstract init c args h
  = (Ok (fresh (dom h)), <[fresh (dom h) := Obj c d]> h).
Proof.
  intros Hargs Habs Hinit. unfold new. rewrite Hargs, Habs.
  unfold bind, alloc, ret.
  rewrite Hinit by apply lookup_insert_eq. by rewrite insert_insert_eq.
Qed.

Lemma fresh_loc h : h !! fresh (dom h) = None.
Proof. apply not_elem_of_dom, is_fresh. Qed.
End ObjectModelRuns.

Lemma bind_ok {C A B} (m : M C A) (k : A -> M C B) h a h' :
  m h = (Ok a, h') -> bind m k h = k a h'.
Proof. intros E. unfold bind. by rewrite E. Qed.

Lemma bind_raise {C A B} (m : M C A) (k : A -> M C B) h e h' :
  m h = (Raise e, h') -> bind m k h = (Raise e, h').
Proof. intros E. unfold bind. by rewrite E. Qed.

(** ** The closing example *)

Lemma Solid_class_attr_methods c m :
  Solid.class_attr c m = true <-> is_Some (Solid.methods c m).
Proof.
  destruct c; unfold Solid.class_attr, Solid.methods;
    repeat (destruct (String.eqb m _)); simpl;
    split; intros H; try done; by destruct H.
Qed.

Lemma Solid_methods_pure c m body l :
  Solid.methods c m = Some body -> pure (body l).
Proof.
  intros H. destruct c; unfold Solid.methods in H;
    repeat (destruct (String.eqb m _)); simplify_eq;
    first [apply pure_ret
          | apply pure_bind; [apply pure_getattr|intros; apply pure_ret]].
Qed.

Lemma Solid_pure_call_method v m : pure (Solid.call_method v m).
Proof. apply pure_call_method, Solid_methods_pure. Qed.

Lemma Solid_pure_bird_info bird : pure (Solid.bird_info bird).
Proof.
  apply pure_bind; [apply pure_getattr_value|]. intros name.
  apply pure_bind; [apply Solid_pure_call_method|]. intros s.
  apply pure_bind; [apply Solid_pure_call_method|]. intros f.
  apply pure_ret.
Qed.

(** [bird_info] in terms of the three things it evaluates, in that order. *)
Lemma Solid_bird_info_run bird h :
  Solid.bird_info bird h
  = (match outcome (getattr_value Solid.class_name Solid.class_attr bird "name") h with
     | Raise e => Raise e
     | Ok name =>
         match outcome (Solid.call_method bird "sing") h with
         | Raise e => Raise e
         | Ok s =>
             match outcome (Solid.call_method bird "fly") h with
             | Raise e => Raise e
             | Ok f =>
                 Ok (VStr (py_format name +:+ " says: " +:+ py_format s
                           +:+ " and " +:+ py_format f))
             end
         end
     end, h).
Proof.
  unfold Solid.bird_info.
  rewrite bind_pure by apply pure_getattr_value.
  destruct (outcome (getattr_value _ _ bird "name") h); [|done].
  rewrite bind_pure by apply Solid_pure_call_method.
  destruct (outcome (Solid.call_method bird "sing") h); [|done].
  rewrite bind_pure by apply Solid_pure_call_method.
  by destruct (outcome (Solid.call_method bird "fly") h).
Qed.

Lemma Solid_new_entity c v h :
  Solid.abstract c = false ->
  Solid.new c [v] h
  = (Ok (fresh (dom h)), <[fresh (dom h) := entity c v]> h).
Proof.
  intros Habs. apply new_stores; [by destruct c|done|]. intros l h' Hl.
  destruct c; try discriminate Habs;
    unfold Solid.init, Solid.Bird_init, setattr; rewrite Hl; simpl;
    by rewrite insert_empty.
Qed.

(** A capability operation on an entity whose class defines it. *)
Lemma Solid_call_entity h l c v m body :
  h !! l = Some (entity c v) -> m <> "name" ->
  Solid.methods c m = Some body ->
  Solid.call_method (VRef l) m h = body l h.
Proof.
  intros Hl Hm Hb. apply (call_method_found _ _ _ h l c _ m body Hl).
  - by apply lookup_singleton_ne.
  - apply Solid_class_attr_methods. by rewrite Hb.
  - done.
Qed.

Lemma Solid_call_entity_missing h l c v m :
  h !! l = Some (entity c v) -> m <> "name" ->
  Solid.class_attr c m = false ->
  Solid.call_method (VRef l) m h
  = (Raise (AttributeError (Solid.class_name c) m), h).
Proof.
  intros Hl Hm Hb. apply (call_method_missing _ _ _ h l c _ m Hl); [|done].
  by apply lookup_singleton_ne.
Qed.

Lemma Solid_Sparrow_fly h l v :
  h !! l = Some (entity Solid.Sparrow v) ->
  Solid.call_method (VRef l) "fly" h = (Ok (VStr (py_format v +:+ " is flying.")), h).
Proof.
  intros Hl. rewrite (Solid_call_entity h l _ v "fly" Solid.Sparrow_fly Hl); [|done..].
  unfold Solid.Sparrow_fly, Solid.getattr.
  by rewrite (bind_ok _ _ _ _ _ (getattr_name _ _ h l _ v Hl)).
Qed.

Lemma Solid_Sparrow_sing h l v :
  h !! l = Some (entity Solid.Sparrow v) ->
  Solid.call_method (VRef l) "sing" h = (Ok (VStr (py_format v +:+ " is singing.")), h).
Proof.
  intros Hl. rewrite (Solid_call_entity h l _ v "sing" Solid.Sparrow_sing Hl); [|done..].
  unfold Solid.Sparrow_sing, Solid.getattr.
  by rewrite (bind_ok _ _ _ _ _ (getattr_name _ _ h l _ v Hl)).
Qed.

Lemma Solid_Penguin_fly h l v :
  h !! l = Some (entity Solid.Penguin v) ->
  Solid.call_method (VRef l) "fly" h = (Ok (VStr (py_format v +:+ " can't fly.")), h).
Proof.
  intros Hl. rewrite (Solid_call_entity h l _ v "fly" Solid.Penguin_fly Hl); [|done..].
  unfold Solid.Penguin_fly, Solid.getattr.
  by rewrite (bind_ok _ _ _ _ _ (getattr_name _ _ h l _ v Hl)).
Qed.

Lemma Solid_bird_info_Sparrow h l v :
  h !! l = Some (entity Solid.Sparrow v) ->
  Solid.bird_info (VRef l) h
  = (Ok (VStr (py_format v +:+ " says: " +:+ (py_format v +:+ " is singing.")
               +:+ " and " +:+ (py_format v +:+ " is flying."))), h).
Proof.
  intros Hl. rewrite Solid_bird_info_run. unfold outcome. simpl getattr_value.
  by rewrite (getattr_name _ _ h l _ v Hl), (Solid_Sparrow_sing h l v Hl),
    (Solid_Sparrow_fly h l v Hl).
Qed.

Lemma Solid_bird_info_no_sing h l c v :
  h !! l = Some (entity c v) -> Solid.class_attr c "sing" = false ->
  Solid.bird_info (VRef l) h
  = (Raise (AttributeError (Solid.class_name c) "sing"), h).
Proof.
  intros Hl Hc. rewrite Solid_bird_info_run. unfold outcome. simpl getattr_value.
  by rewrite (getattr_name _ _ h l _ v Hl),
    (Solid_call_entity_missing h l c v "sing" Hl).
Qed.

(** *** Construction *)

Lemma Solid_new_no_name c h :
  Solid.abstract c = false ->
  outcome (Solid.new c []) h = Raise (TypeError BadArity).
Proof.
  intros Habs. unfold outcome, Solid.new, new. rewrite Habs.
  unfold bind, alloc. by destruct c.
Qed.

(** C2, as amended: constructing a [Bird], a [Sparrow] or a [Penguin] with any
    text name, the empty text included, succeeds: it yields a new object whose
    only attribute is that name.  A call that passes no name is refused by the
    argument check of the call, with a [TypeError]. *)
Theorem construction_accepts_every_name (c : Solid.cls) (n : string)
    (h : gmap loc (object Solid.cls)) :
  Solid.abstract c = false ->
  exists l,
    h !! l = None /\
    Solid.new c [VStr n] h = (Ok l, <[l := entity c (VStr n)]> h) /\
    outcome (Solid.getattr l "name") (<[l := entity c (VStr n)]> h) = Ok (VStr n) /\
    outcome (Solid.new c []) h = Raise (TypeError BadArity).
Proof.
  intros Habs. exists (fresh (dom h)). split; [apply fresh_loc|].
  split; [by apply Solid_new_entity|]. split; [|by apply Solid_new_no_name].
  unfold outcome, Solid.getattr.
  by rewrite (getattr_name _ _ _ _ c (VStr n) (lookup_insert_eq _ _ _)).
Qed.

Lemma construction_accepts_every_name_witness :
  exists l,
    (∅ : gmap loc (object Solid.cls)) !! l = None /\
    Solid.new Solid.Sparrow [VStr ""] ∅ = (Ok l, <[l := entity Solid.Sparrow (VStr "")]> ∅) /\
    outcome (Solid.getattr l "name") (<[l := entity Solid.Sparrow (VStr "")]> ∅) = Ok (VStr "") /\
    outcome (Solid.new Solid.Sparrow []) ∅ = Raise (TypeError BadArity).
Proof. apply (construction_accepts_every_name Solid.Sparrow "" ∅). reflexivity. Defined.

(** C2 fails as stated: constructing a [Bird] with the empty name raises
    nothing. *)
Lemma empty_name_is_accepted :
  ~ exists e, outcome (Solid.new Solid.Bird [VStr ""]) ∅ = Raise e.
Proof. intros [e He]. vm_compute in He. discriminate He. Qed.

(** *** The dispatcher on the entities of the script *)

(** C1: [bird_info] asks every bird to [sing] before anything else, so on a
    [Penguin], whatever its name, it raises [AttributeError] where the claim
    wants a text. *)
Theorem bird_info_Penguin_raises (n : string) (h : gmap loc (object Solid.cls)) :
  outcome (penguin <- Solid.new Solid.Penguin [VStr n];;
           Solid.bird_info (VRef penguin)) h
  = Raise (AttributeError "Penguin" "sing").
Proof.
  unfold outcome.
  rewrite (bind_ok _ _ _ _ _ (Solid_new_entity Solid.Penguin (VStr n) h eq_refl)).
  by rewrite (Solid_bird_info_no_sing _ _ Solid.Penguin (VStr n)
                (lookup_insert_eq _ _ _) eq_refl).
Qed.

(** The script itself stops at its last line with that error. *)
Lemma usage_raises h :
  outcome Solid.usage h = Raise (AttributeError "Penguin" "sing").
Proof.
  unfold outcome, Solid.usage.
  rewrite (bind_ok _ _ _ _ _ (Solid_new_entity Solid.Sparrow _ h eq_refl)).
  set (h1 := <[fresh (dom h) := _]> h).
  rewrite (bind_ok _ _ _ _ _ (Solid_new_entity Solid.Penguin _ h1 eq_refl)).
  set (h2 := <[fresh (dom h1) := _]> h1).
  assert (H1 : h2 !! fresh (dom h) = Some (entity Solid.Sparrow (VStr "Sparrow"))).
  { unfold h2. rewrite lookup_insert_ne.
    - apply lookup_insert_eq.
    - intros E. pose proof (fresh_loc h1) as F. rewrite E in F.
      unfold h1 in F. by rewrite lookup_insert_eq in F. }
  assert (H2 : h2 !! fresh (dom h1) = Some (entity Solid.Penguin (VStr "Penguin"))).
  { apply lookup_insert_eq. }
  rewrite (bind_ok _ _ _ _ _ (Solid_bird_info_Sparrow _ _ _ H1)).
  by rewrite (bind_raise _ _ _ _ _
                (Solid_bird_info_no_sing _ _ Solid.Penguin _ H2 eq_refl)).
Qed.

(** C5: for the entity named "Sparrow", whose class has both [fly] and [sing],
    [bird_info] returns a text in which both "flying" and "singing" occur. *)
Theorem bird_info_Sparrow_flying_singing (h : gmap loc (object Solid.cls)) :
  exists text,
    outcome (sparrow <- Solid.new Solid.Sparrow [VStr "Sparrow"];;
             Solid.bird_info (VRef sparrow)) h = Ok (VStr text) /\
    contains "flying" text = true /\ contains "singing" text = true.
Proof.
  eexists. split.
  - unfold outcome.
    rewrite (bind_ok _ _ _ _ _ (Solid_new_entity Solid.Sparrow _ h eq_refl)).
    by rewrite (Solid_bird_info_Sparrow _ _ _ (lookup_insert_eq _ _ _)).
  - by vm_compute.
Qed.

(** C4, as amended: for the entity named "Penguin", whose class has the
    movement operation [fly] and no [sing], that operation returns
    "Penguin can't fly.", a text with neither "swimming" nor "singing" in it. *)
Theorem Penguin_fly_text (h : gmap loc (object Solid.cls)) :
  exists text,
    outcome (penguin <- Solid.new Solid.Penguin [VStr "Penguin"];;
             Solid.call_method (VRef penguin) "fly") h = Ok (VStr text) /\
    text = "Penguin can't fly." /\
    Solid.class_attr Solid.Penguin "sing" = false /\
    contains "swimming" text = false /\ contains "singing" text = false.
Proof.
  eexists. split.
  - unfold outcome.
    rewrite (bind_ok _ _ _ _ _ (Solid_new_entity Solid.Penguin _ h eq_refl)).
    by rewrite (Solid_Penguin_fly _ _ _ (lookup_insert_eq _ _ _)).
  - by vm_compute.
Qed.

(** C4 fails as stated: [bird_info] returns no text at all on the entity named
    "Penguin", so none with "swimming" in it. *)
Lemma bird_info_Penguin_no_swimming :
  ~ exists text,
      outcome (penguin <- Solid.new Solid.Penguin [VStr "Penguin"];;
               Solid.bird_info (VRef penguin)) ∅ = Ok (VStr text) /\
      contains "swimming" text = true /\ contains "singing" text = false.
Proof. intros (text & H & _). vm_compute in H. discriminate H. Qed.

(** *** The order of the description *)

(** C3, as amended: whenever [sing] and [fly] both return on a bird,
    [bird_info] returns a text in which the output of the vocalization comes
    first and the output of the movement after it. *)
Theorem bird_info_sing_before_fly (h : gmap loc (object Solid.cls))
    (bird vocal movement out : value) :
  outcome (Solid.call_method bird "sing") h = Ok vocal ->
  outcome (Solid.call_method bird "fly") h = Ok movement ->
  outcome (Solid.bird_info bird) h = Ok out ->
  exists text,
    out = VStr text /\ precedes (py_format vocal) (py_format movement) text.
Proof.
  intros Hs Hf Ho. unfold outcome in Ho. rewrite Solid_bird_info_run in Ho.
  simpl in Ho. rewrite Hs, Hf in Ho.
  destruct (outcome (getattr_value _ _ bird "name") h) as [name|]; [|done].
  injection Ho as <-. eexists. split; [done|].
  exists (py_format name +:+ " says: "), " and ", "".
  by rewrite append_nil_r, append_assoc.
Qed.

Lemma bird_info_sing_before_fly_witness :
  exists text,
    VStr "Sparrow says: Sparrow is singing. and Sparrow is flying." = VStr text /\
    precedes "Sparrow is singing." "Sparrow is flying." text.
Proof.
  apply (bird_info_sing_before_fly
           (<[0 := entity Solid.Sparrow (VStr "Sparrow")]> ∅) (VRef 0)
           (VStr "Sparrow is singing.") (VStr "Sparrow is flying.")
           (VStr "Sparrow says: Sparrow is singing. and Sparrow is flying."));
    vm_compute; reflexivity.
Defined.

(** C3 fails as stated: on the sparrow of the script the output of the
    movement does not come before the output of the vocalization. *)
Lemma movement_not_before_vocalization :
  outcome (sparrow <- Solid.new Solid.Sparrow [VStr "Sparrow"];;
           movement <- Solid.call_method (VRef sparrow) "fly";;
           vocal <- Solid.call_method (VRef sparrow) "sing";;
           out <- Solid.bird_info (VRef sparrow);;
           ret (movement, vocal, out)) ∅
  = Ok (VStr "Sparrow is flying.", VStr "Sparrow is singing.",
        VStr "Sparrow says: Sparrow is singing. and Sparrow is flying.") /\
  ~ precedes "Sparrow is flying." "Sparrow is singing."
      "Sparrow says: Sparrow is singing. and Sparrow is flying.".
Proof.
  split; [by vm_compute|].
  intros H. apply precedes_precedesb in H. vm_compute in H. discriminate H.
Qed.

(** *** Entities without a capability *)




(** *** Purity *)

Lemma Solid_pure_run_op op bird : pure (run_op op bird).
Proof.
  destruct op; [apply Solid_pure_bird_info|apply Solid_pure_call_method..].
Qed.

(** On a constructed entity a capability operation depends on the class and
    the name alone. *)
Lemma Solid_call_entity_outcome h1 h2 l1 l2 c v m :
  h1 !! l1 = Some (entity c v) -> h2 !! l2 = Some (entity c v) ->
  m <> "name" ->
  outcome (Solid.call_method (VRef l1) m) h1
  = outcome (Solid.call_method (VRef l2) m) h2.
Proof.
  intros H1 H2 Hm. unfold outcome.
  destruct (Solid.class_attr c m) eqn:Hc.
  - destruct (proj1 (Solid_class_attr_methods c m) Hc) as [body Hb].
    rewrite (Solid_call_entity h1 l1 c v m body H1 Hm Hb),
      (Solid_call_entity h2 l2 c v m body H2 Hm Hb).
    destruct c; unfold Solid.methods in Hb;
      repeat (destruct (String.eqb m _)); simplify_eq; try done;
      unfold Solid.Sparrow_fly, Solid.Sparrow_sing, Solid.Penguin_fly,
        Solid.getattr;
      by rewrite (bind_ok _ _ _ _ _ (getattr_name _ _ h1 l1 _ v H1)),
        (bind_ok _ _ _ _ _ (getattr_name _ _ h2 l2 _ v H2)).
  - by rewrite (Solid_call_entity_missing h1 l1 c v m H1 Hm Hc),
      (Solid_call_entity_missing h2 l2 c v m H2 Hm Hc).
Qed.

(** C8: [bird_info], [fly] and [sing] leave the heap, and with it the name of
    every entity, as they found it, whatever they are called on; and on two
    entities of the same class and name they give the same result. *)
Theorem operations_pure_and_deterministic (op : operation)
    (h1 h2 : gmap loc (object Solid.cls)) (bird : value) (l1 l2 : loc)
    (c : Solid.cls) (n : string) :
  h1 !! l1 = Some (entity c (VStr n)) ->
  h2 !! l2 = Some (entity c (VStr n)) ->
  heap_after (run_op op bird) h1 = h1 /\
  outcome (Solid.getattr l1 "name") (heap_after (run_op op (VRef l1)) h1)
  = Ok (VStr n) /\
  outcome (run_op op (VRef l1)) h1 = outcome (run_op op (VRef l2)) h2 /\
  outcome (r1 <- run_op op (VRef l1);; r2 <- run_op op (VRef l1);; ret (r1, r2)) h1
  = match outcome (run_op op (VRef l1)) h1 with
    | Ok r => Ok (r, r)
    | Raise e => Raise e
    end.
Proof.
  intros H1 H2. split; [apply Solid_pure_run_op|]. split; [|split].
  - rewrite Solid_pure_run_op. unfold outcome, Solid.getattr.
    by rewrite (getattr_name _ _ h1 l1 c _ H1).
  - assert (Hm : forall m, m <> "name" ->
        outcome (Solid.call_method (VRef l1) m) h1
        = outcome (Solid.call_method (VRef l2) m) h2).
    { intros m. by apply (Solid_call_entity_outcome h1 h2 l1 l2 c (VStr n)). }
    destruct op; simpl; [|by apply Hm..].
    unfold outcome at 1 2. rewrite !Solid_bird_info_run. simpl.
    rewrite <- !Hm by done. unfold outcome at 1 4.
    by rewrite (getattr_name _ _ h1 l1 c _ H1), (getattr_name _ _ h2 l2 c _ H2).
  - unfold outcome at 1. rewrite bind_pure by apply Solid_pure_run_op.
    destruct (outcome (run_op op (VRef l1)) h1) as [r|e] eqn:E; [|done].
    rewrite bind_pure by apply Solid_pure_run_op. by rewrite E.
Qed.

Lemma operations_pure_and_deterministic_witness :
  heap_after (run_op Describe (VRef 0)) (<[0 := entity Solid.Sparrow (VStr "Sparrow")]> ∅)
  = <[0 := entity Solid.Sparrow (VStr "Sparrow")]> ∅ /\
  outcome (Solid.getattr 0 "name")
    (heap_after (run_op Describe (VRef 0)) (<[0 := entity Solid.Sparrow (VStr "Sparrow")]> ∅))
  = Ok (VStr "Sparrow") /\
  outcome (run_op Describe (VRef 0)) (<[0 := entity Solid.Sparrow (VStr "Sparrow")]> ∅)
  = outcome (run_op Describe (VRef 3)) (<[3 := entity Solid.Sparrow (VStr "Sparrow")]> ∅) /\
  outcome (r1 <- run_op Describe (VRef 0);; r2 <- run_op Describe (VRef 0);;
           ret (r1, r2)) (<[0 := entity Solid.Sparrow (VStr "Sparrow")]> ∅)
  = match outcome (run_op Describe (VRef 0)) (<[0 := entity Solid.Sparrow (VStr "Sparrow")]> ∅) with
    | Ok r => Ok (r, r)
    | Raise e => Raise e
    end.
Proof.
  apply (operations_pure_and_deterministic Describe
           (<[0 := entity Solid.Sparrow (VStr "Sparrow")]> ∅) (<[3 := entity Solid.Sparrow (VStr "Sparrow")]> ∅) (VRef 0) 0 3 Solid.Sparrow "Sparrow");
    vm_compute; reflexivity.
Defined.

(** ** Capability operations name their entity *)

Section NamedOperations.
Context {C : Type}.
Variable class_name : C -> string.
Variable class_attr : C -> string -> bool.
Variable defines_init : C -> bool.
Variable abstract : C -> bool.
Variable init : C -> loc -> list value -> M C unit.
Variable methods : C -> string -> option (loc -> M C value).
Implicit Types (h : gmap loc (object C)).

Lemma setattr_fresh h l c a v :
  h !! l = Some (Obj c ∅) ->
  setattr l a v h = (Ok tt, <[l := Obj c {[ a := v ]}]> h).
Proof. intros Hl. unfold setattr. rewrite Hl. simpl. by rewrite insert_empty. Qed.

(** Every capability operation of the script has this body:
    [return f"{self.name}<suffix>"]. *)
Lemma name_suffix_run h l c v suffix :
  h !! l = Some (entity c v) ->
  (name <- getattr class_name class_attr l "name";;
   ret (VStr (py_format name +:+ suffix))) h
  = (Ok (VStr (py_format v +:+ suffix)), h).
Proof. intros Hl. by rewrite (bind_ok _ _ _ _ _ (getattr_name _ _ h l c v Hl)). Qed.

Lemma name_suffix_named_text n suffix :
  suffix <> "" -> named_text n (Ok (VStr (n +:+ suffix))).
Proof.
  intros Hs. exists (n +:+ suffix). split; [done|]. split.
  - by apply append_nonempty.
  - apply contains_prefix, prefix_append.
Qed.

(** Constructing an entity and calling one of the methods of its class. *)
Lemma new_then_call h c v m body :
  defines_init c = true ->
  abstract c = false ->
  (forall l h', h' !! l = Some (Obj c ∅) ->
                init c l [v] h' = (Ok tt, <[l := entity c v]> h')) ->
  m <> "name" -> class_attr c m = true -> methods c m = Some body ->
  (bird <- new defines_init abstract init c [v];;
   call_method class_name class_attr methods (VRef bird) m) h
  = body (fresh (dom h)) (<[fresh (dom h) := entity c v]> h).
Proof.
  intros Hdef Habs Hinit Hm Hc Hb.
  assert (Hargs : negb (defines_init c) && excess_args [v] = false)
    by (by rewrite Hdef).
  rewrite (bind_ok _ _ _ _ _
             (new_stores defines_init abstract init c [v] _ h Hargs Habs Hinit)).
  apply (call_method_found _ _ _ _ _ c {[ "name" := v ]}); try done.
  - apply lookup_insert_eq.
  - by apply lookup_singleton_ne.
Qed.
End NamedOperations.

Lemma Solid_capabilities n h c m :
  c = Solid.Sparrow \/ c = Solid.Penguin -> Solid.class_attr c m = true ->
  named_text n (outcome (bird <- Solid.new c [VStr n];;
                         Solid.call_method (VRef bird) m) h).
Proof.
  intros Hc Hm. unfold outcome, Solid.new, Solid.call_method.
  assert (Hname : m <> "name").
  { intros ->. by destruct Hc; subst. }
  assert (Hinit : forall c' l h', Solid.abstract c' = false ->
            h' !! l = Some (Obj c' ∅) ->
            Solid.init c' l [VStr n] h' = (Ok tt, <[l := entity c' (VStr n)]> h')).
  { intros c' l h' Ha Hl. destruct c'; try discriminate Ha; by apply setattr_fresh. }
  assert (Hbody : exists suffix, suffix <> "" /\
            Solid.methods c m
            = Some (fun self => name <- Solid.getattr self "name";;
                                ret (VStr (py_format name +:+ suffix)))).
  { destruct Hc; subst; unfold Solid.methods; simpl in Hm.
    - destruct (String.eqb m "fly"); [by exists " is flying."|].
      destruct (String.eqb m "sing"); [by exists " is singing."|done].
    - destruct (String.eqb m "fly"); [by exists " can't fly."|done]. }
  destruct Hbody as (suffix & Hs & Hb).
  assert (Habs : Solid.abstract c = false) by (by destruct Hc; subst).
  assert (Hdef : Solid.defines_init c = true) by (by destruct Hc; subst).
  rewrite (new_then_call _ _ _ _ _ _ h c _ m _ Hdef Habs
             (fun l h' => Hinit c l h' Habs) Hname Hm Hb).
  unfold Solid.getattr.
  rewrite (name_suffix_run _ _ _ _ c (VStr n)) by apply lookup_insert_eq.
  by apply name_suffix_named_text.
Qed.

Lemma LSP_adhering_capabilities n h c m :
  c = LSP_adhering.Sparrow \/ c = LSP_adhering.Penguin -> LSP_adhering.class_attr c m = true ->
  named_text n (outcome (bird <- LSP_adhering.new c [VStr n];;
                         LSP_adhering.call_method (VRef bird) m) h).
Proof.
  intros Hc Hm. unfold outcome, LSP_adhering.new, LSP_adhering.call_method.
  assert (Hname : m <> "name").
  { intros ->. by destruct Hc; subst. }
  assert (Hinit : forall l h', h' !! l = Some (Obj c ∅) ->
            LSP_adhering.init c l [VStr n] h' = (Ok tt, <[l := entity c (VStr n)]> h')).
  { intros l h' Hl. destruct Hc; subst; by apply setattr_fresh. }
  assert (Hbody : exists suffix, suffix <> "" /\
            LSP_adhering.methods c m
            = Some (fun self => name <- LSP_adhering.getattr self "name";;
                                ret (VStr (py_format name +:+ suffix)))).
  { destruct Hc; subst; unfold LSP_adhering.methods; unfold LSP_adhering.class_attr in Hm; simpl.
    - destruct (String.eqb m "move"); [by exists " is flying."|done].
    - destruct (String.eqb m "move"); [by exists " is swimming."|done]. }
  destruct Hbody as (suffix & Hs & Hb).
  assert (Habs : LSP_adhering.abstract c = false) by (by destruct Hc; subst).
  assert (Hdef : LSP_adhering.defines_init c = true) by (by destruct Hc; subst).
  rewrite (new_then_call _ _ _ _ _ _ h c _ m _ Hdef Habs Hinit Hname Hm Hb).
  unfold LSP_adhering.getattr.
  rewrite (name_suffix_run _ _ _ _ c (VStr n)) by apply lookup_insert_eq.
  by apply name_suffix_named_text.
Qed.

Lemma ISP_adhering_capabilities n h c m :
  c = ISP_adhering.Sparrow \/ c = ISP_adhering.Penguin -> ISP_adhering.class_attr c m = true ->
  named_text n (outcome (bird <- ISP_adhering.new c [VStr n];;
                         ISP_adhering.call_method (VRef bird) m) h).
Proof.
  intros Hc Hm. unfold outcome, ISP_adhering.new, ISP_adhering.call_method.
  assert (Hname : m <> "name").
  { intros ->. by destruct Hc; subst. }
  assert (Hinit : forall l h', h' !! l = Some (Obj c ∅) ->
            ISP_adhering.init c l [VStr n] h' = (Ok tt, <[l := entity c (VStr n)]> h')).
  { intros l h' Hl. destruct Hc; subst; by apply setattr_fresh. }
  assert (Hbody : exists suffix, suffix <> "" /\
            ISP_adhering.methods c m
            = Some (fun self => name <- ISP_adhering.getattr self "name";;
                                ret (VStr (py_format name +:+ suffix)))).
  { destruct Hc; subst; unfold ISP_adhering.methods; unfold ISP_adhering.class_attr in Hm; simpl.
    - destruct (String.eqb m "fly"); [by exists " is flying."|done].
    - destruct (String.eqb m "swim"); [by exists " is swimming."|done]. }
  destruct Hbody as (suffix & Hs & Hb).
  assert (Habs : ISP_adhering.abstract c = false) by (by destruct Hc; subst).
  assert (Hdef : ISP_adhering.defines_init c = true) by (by destruct Hc; subst).
  rewrite (new_then_call _ _ _ _ _ _ h c _ m _ Hdef Habs Hinit Hname Hm Hb).
  unfold ISP_adhering.getattr.
  rewrite (name_suffix_run _ _ _ _ c (VStr n)) by apply lookup_insert_eq.
  by apply name_suffix_named_text.
Qed.

Lemma DIP_adhering_capabilities n h c m :
  c = DIP_adhering.Sparrow \/ c = DIP_adhering.Penguin -> DIP_adhering.class_attr c m = true ->
  named_text n (outcome (bird <- DIP_adhering.new c [VStr n];;
                         DIP_adhering.call_method (VRef bird) m) h).
Proof.
  intros Hc Hm. unfold outcome, DIP_adhering.new, DIP_adhering.call_method.
  assert (Hname : m <> "name").
  { intros ->. by destruct Hc; subst. }
  assert (Hinit : forall l h', h' !! l = Some (Obj c ∅) ->
            DIP_adhering.init c l [VStr n] h' = (Ok tt, <[l := entity c (VStr n)]> h')).
  { intros l h' Hl. destruct Hc; subst; by apply setattr_fresh. }
  assert (Hbody : exists suffix, suffix <> "" /\
            DIP_adhering.methods c m
            = Some (fun self => name <- DIP_adhering.getattr self "name";;
                                ret (VStr (py_format name +:+ suffix)))).
  { destruct Hc; subst; unfold DIP_adhering.methods; unfold DIP_adhering.class_attr in Hm; simpl.
    - destruct (String.eqb m "move"); [by exists " is flying."|done].
    - destruct (String.eqb m "move"); [by exists " is swimming."|done]. }
  destruct Hbody as (suffix & Hs & Hb).
  assert (Habs : DIP_adhering.abstract c = false) by (by destruct Hc; subst).
  assert (Hdef : DIP_adhering.defines_init c = true) by (by destruct Hc; subst).
  rewrite (new_then_call _ _ _ _ _ _ h c _ m _ Hdef Habs Hinit Hname Hm Hb).
  unfold DIP_adhering.getattr.
  rewrite (name_suffix_run _ _ _ _ c (VStr n)) by apply lookup_insert_eq.
  by apply name_suffix_named_text.
Qed.

Lemma DIP_violating_capabilities n h c m :
  c = DIP_violating.Sparrow \/ c = DIP_violating.Penguin -> DIP_violating.class_attr c m = true ->
  named_text n (outcome (bird <- DIP_violating.new c [VStr n];;
                         DIP_violating.call_method (VRef bird) m) h).
Proof.
  intros Hc Hm. unfold outcome, DIP_violating.new, DIP_violating.call_method.
  assert (Hname : m <> "name").
  { intros ->. by destruct Hc; subst. }
  assert (Hinit : forall l h', h' !! l = Some (Obj c ∅) ->
            DIP_violating.init c l [VStr n] h' = (Ok tt, <[l := entity c (VStr n)]> h')).
  { intros l h' Hl. destruct Hc; subst; by apply setattr_fresh. }
  assert (Hbody : exists suffix, suffix <> "" /\
            DIP_violating.methods c m
            = Some (fun self => name <- DIP_violating.getattr self "name";;
                                ret (VStr (py_format name +:+ suffix)))).
  { destruct Hc; subst; unfold DIP_violating.methods; unfold DIP_violating.class_attr in Hm; simpl.
    - destruct (String.eqb m "move"); [by exists " is flying."|done].
    - destruct (String.eqb m "move"); [by exists " is swimming."|done]. }
  destruct Hbody as (suffix & Hs & Hb).
  assert (Habs : DIP_violating.abstract c = false) by (by destruct Hc; subst).
  assert (Hdef : DIP_violating.defines_init c = true) by (by destruct Hc; subst).
  rewrite (new_then_call _ _ _ _ _ _ h c _ m _ Hdef Habs Hinit Hname Hm Hb).
  unfold DIP_violating.getattr.
  rewrite (name_suffix_run _ _ _ _ c (VStr n)) by apply lookup_insert_eq.
  by apply name_suffix_named_text.
Qed.

(** C6: in every section of the script that gives [Sparrow] and [Penguin]
    operations of their own ([fly], [sing], [swim], [move]), each operation
    the class defines, called on an instance constructed with the name [n],
    returns a text that is not empty and in which [n] occurs. *)
Theorem capability_text_names_entity (n : string) :
  (forall h c m,
     c = Solid.Sparrow \/ c = Solid.Penguin -> Solid.class_attr c m = true ->
     named_text n (outcome (bird <- Solid.new c [VStr n];;
                            Solid.call_method (VRef bird) m) h)) /\
  (forall h c m,
     c = LSP_adhering.Sparrow \/ c = LSP_adhering.Penguin ->
     LSP_adhering.class_attr c m = true ->
     named_text n (outcome (bird <- LSP_adhering.new c [VStr n];;
                            LSP_adhering.call_method (VRef bird) m) h)) /\
  (forall h c m,
     c = ISP_adhering.Sparrow \/ c = ISP_adhering.Penguin ->
     ISP_adhering.class_attr c m = true ->
     named_text n (outcome (bird <- ISP_adhering.new c [VStr n];;
                            ISP_adhering.call_method (VRef bird) m) h)) /\
  (forall h c m,
     c = DIP_adhering.Sparrow \/ c = DIP_adhering.Penguin ->
     DIP_adhering.class_attr c m = true ->
     named_text n (outcome (bird <- DIP_adhering.new c [VStr n];;
                            DIP_adhering.call_method (VRef bird) m) h)) /\
  (forall h c m,
     c = DIP_violating.Sparrow \/ c = DIP_violating.Penguin ->
     DIP_violating.class_attr c m = true ->
     named_text n (outcome (bird <- DIP_violating.new c [VStr n];;
                            DIP_violating.call_method (VRef bird) m) h)).
Proof.
  repeat split; intros h c m.
  - apply Solid_capabilities.
  - apply LSP_adhering_capabilities.
  - apply ISP_adhering_capabilities.
  - apply DIP_adhering_capabilities.
  - apply DIP_violating_capabilities.
Qed.

Lemma capability_text_names_entity_witness :
  named_text "Penguin"
    (outcome (bird <- ISP_adhering.new ISP_adhering.Penguin [VStr "Penguin"];;
              ISP_adhering.call_method (VRef bird) "swim") ∅).
Proof.
  apply (proj1 (proj2 (proj2 (capability_text_names_entity "Penguin")))
           ∅ ISP_adhering.Penguin "swim").
  - right. reflexivity.
  - reflexivity.
Defined.

(** ** The violating variants that branch on a text *)

Lemma two_attributes {C} (h : gmap loc (object C)) l c a1 v1 a2 v2 :
  h !! l = Some (Obj c ∅) ->
  (_ <- setattr l a1 v1;; setattr l a2 v2) h
  = (Ok tt, <[l := Obj c (<[a2 := v2]> {[ a1 := v1 ]})]> h).
Proof.
  intros Hl. rewrite (bind_ok _ _ _ _ _ (setattr_fresh h l c a1 v1 Hl)).
  unfold setattr. rewrite lookup_insert_eq. simpl. by rewrite insert_insert_eq.
Qed.

Lemma OCP_violating_new h name species :
  OCP_violating.new OCP_violating.Bird [name; species] h
  = (Ok (fresh (dom h)),
     <[fresh (dom h) := Obj OCP_violating.Bird
                          (<["species" := species]> {[ "name" := name ]})]> h).
Proof. apply new_stores; [done|done|]. intros l h' Hl. by apply two_attributes. Qed.

Lemma LSP_violating_new h name ability :
  LSP_violating.new LSP_violating.Bird [name; ability] h
  = (Ok (fresh (dom h)),
     <[fresh (dom h) := Obj LSP_violating.Bird
                          (<["ability" := ability]> {[ "name" := name ]})]> h).
Proof. apply new_stores; [done|done|]. intros l h' Hl. by apply two_attributes. Qed.

(** [Bird.describe] on a bird with the texts [n] and [sp] for its name and
    species. *)
Lemma OCP_violating_describe h l n sp :
  h !! l = Some (Obj OCP_violating.Bird
                   (<["species" := VStr sp]> {[ "name" := VStr n ]})) ->
  OCP_violating.call_method (VRef l) "describe" h
  = (Ok (VStr (n +:+
         (if String.eqb sp "sparrow" then " is a sparrow."
          else if String.eqb sp "penguin" then " is a penguin."
          else if String.eqb sp "ostrich" then " is an ostrich."
          else " is an unknown bird."))), h).
Proof.
  intros Hl. unfold OCP_violating.call_method.
  rewrite (call_method_found _ _ _ h l _ _ "describe"
             OCP_violating.Bird_describe Hl); [|done..].
  assert (Hs : OCP_violating.getattr l "species" h = (Ok (VStr sp), h)).
  { by apply (getattr_dict _ _ h l _ _ "species" _ Hl). }
  assert (Hn : OCP_violating.getattr l "name" h = (Ok (VStr n), h)).
  { by apply (getattr_dict _ _ h l _ _ "name" _ Hl). }
  unfold OCP_violating.Bird_describe.
  rewrite (bind_ok _ _ _ _ _ Hs). unfold py_eq.
  destruct (String.eqb sp "sparrow"); cbv iota; [by rewrite (bind_ok _ _ _ _ _ Hn)|].
  rewrite (bind_ok _ _ _ _ _ Hs). unfold py_eq.
  destruct (String.eqb sp "penguin"); cbv iota; [by rewrite (bind_ok _ _ _ _ _ Hn)|].
  rewrite (bind_ok _ _ _ _ _ Hs). unfold py_eq.
  destruct (String.eqb sp "ostrich"); cbv iota; by rewrite (bind_ok _ _ _ _ _ Hn).
Qed.

(** [Bird.move] on a bird with the texts [n] and [ab] for its name and
    ability. *)
Lemma LSP_violating_move h l n ab :
  h !! l = Some (Obj LSP_violating.Bird
                   (<["ability" := VStr ab]> {[ "name" := VStr n ]})) ->
  LSP_violating.call_method (VRef l) "move" h
  = (Ok (if String.eqb ab "flying" then VStr (n +:+ " is flying.")
         else if String.eqb ab "swimming" then VStr (n +:+ " is swimming.")
         else VNone), h).
Proof.
  intros Hl. unfold LSP_violating.call_method.
  rewrite (call_method_found _ _ _ h l _ _ "move"
             LSP_violating.Bird_move Hl); [|done..].
  assert (Ha : LSP_violating.getattr l "ability" h = (Ok (VStr ab), h)).
  { by apply (getattr_dict _ _ h l _ _ "ability" _ Hl). }
  assert (Hn : LSP_violating.getattr l "name" h = (Ok (VStr n), h)).
  { by apply (getattr_dict _ _ h l _ _ "name" _ Hl). }
  unfold LSP_violating.Bird_move.
  rewrite (bind_ok _ _ _ _ _ Ha). unfold py_eq.
  destruct (String.eqb ab "flying"); cbv iota; [by rewrite (bind_ok _ _ _ _ _ Hn)|].
  rewrite (bind_ok _ _ _ _ _ Ha). unfold py_eq.
  destruct (String.eqb ab "swimming"); cbv iota; [by rewrite (bind_ok _ _ _ _ _ Hn)|done].
Qed.

(** C9: the [describe] of the variant that violates the open-closed principle
    returns a text for every species, and "<name> is an unknown bird." for
    every species other than "sparrow", "penguin" and "ostrich"; the [move] of
    the variant that violates the substitution principle returns [None] for
    every ability other than "flying" and "swimming". *)
Theorem violating_variants_fall_through (n species ability : string)
    (ho : gmap loc (object OCP_violating.cls))
    (hl : gmap loc (object LSP_violating.cls)) :
  species <> "sparrow" -> species <> "penguin" -> species <> "ostrich" ->
  ability <> "flying" -> ability <> "swimming" ->
  outcome (bird <- OCP_violating.new OCP_violating.Bird [VStr n; VStr species];;
           OCP_violating.call_method (VRef bird) "describe") ho
  = Ok (VStr (n +:+ " is an unknown bird.")) /\
  (forall sp, exists text,
     outcome (bird <- OCP_violating.new OCP_violating.Bird [VStr n; VStr sp];;
              OCP_violating.call_method (VRef bird) "describe") ho
     = Ok (VStr text)) /\
  outcome (bird <- LSP_violating.new LSP_violating.Bird [VStr n; VStr ability];;
           LSP_violating.call_method (VRef bird) "move") hl
  = Ok VNone.
Proof.
  intros H1 H2 H3 H4 H5. unfold outcome. repeat split.
  - rewrite (bind_ok _ _ _ _ _ (OCP_violating_new ho _ _)).
    rewrite (OCP_violating_describe _ _ n species) by apply lookup_insert_eq.
    by rewrite (proj2 (String.eqb_neq _ _) H1), (proj2 (String.eqb_neq _ _) H2),
      (proj2 (String.eqb_neq _ _) H3).
  - intros sp. eexists.
    rewrite (bind_ok _ _ _ _ _ (OCP_violating_new ho _ _)).
    by rewrite (OCP_violating_describe _ _ n sp) by apply lookup_insert_eq.
  - rewrite (bind_ok _ _ _ _ _ (LSP_violating_new hl _ _)).
    rewrite (LSP_violating_move _ _ n ability) by apply lookup_insert_eq.
    by rewrite (proj2 (String.eqb_neq _ _) H4), (proj2 (String.eqb_neq _ _) H5).
Qed.

Lemma violating_variants_fall_through_witness :
  outcome (bird <- OCP_violating.new OCP_violating.Bird [VStr "Rio"; VStr "parrot"];;
           OCP_violating.call_method (VRef bird) "describe") ∅
  = Ok (VStr ("Rio" +:+ " is an unknown bird.")) /\
  (forall sp, exists text,
     outcome (bird <- OCP_violating.new OCP_violating.Bird [VStr "Rio"; VStr sp];;
              OCP_violating.call_method (VRef bird) "describe") ∅
     = Ok (VStr text)) /\
  outcome (bird <- LSP_violating.new LSP_violating.Bird [VStr "Rio"; VStr "running"];;
           LSP_violating.call_method (VRef bird) "move") ∅
  = Ok VNone.
Proof.
  apply (violating_variants_fall_through "Rio" "parrot" "running" ∅ ∅);
    discriminate.
Defined.

(** ** The two bird controllers *)

Lemma DIP_adhering_new_controller h bird ctl h1 :
  DIP_adhering.new DIP_adhering.BirdController [bird] h = (Ok ctl, h1) ->
  h !! ctl = None /\
  h1 = <[ctl := Obj DIP_adhering.BirdController {[ "bird" := bird ]}]> h.
Proof.
  unfold DIP_adhering.new.
  rewrite (new_stores _ _ _ DIP_adhering.BirdController [bird] {[ "bird" := bird ]});
    [|done|done|by intros l h' Hl; apply setattr_fresh].
  intros [= <- <-]. split; [apply fresh_loc|done].
Qed.

Lemma DIP_violating_new_controller h bird ctl h1 :
  DIP_violating.new DIP_violating.BirdController [bird] h = (Ok ctl, h1) ->
  h !! ctl = None /\
  h1 = <[ctl := Obj DIP_violating.BirdController {[ "bird" := bird ]}]> h.
Proof.
  unfold DIP_violating.new.
  rewrite (new_stores _ _ _ DIP_violating.BirdController [bird] {[ "bird" := bird ]});
    [|done|done|by intros l h' Hl; apply setattr_fresh].
  intros [= <- <-]. split; [apply fresh_loc|done].
Qed.

(** [make_move] hands over to the [move] of the bird the controller holds. *)
Lemma DIP_adhering_make_move h ctl bird :
  h !! ctl = Some (Obj DIP_adhering.BirdController {[ "bird" := bird ]}) ->
  DIP_adhering.call_method (VRef ctl) "make_move" h
  = call_method DIP_adhering.class_name DIP_adhering.class_attr
      (DIP_adhering.methods_at (Nat.pred recursion_limit)) bird "move" h.
Proof.
  intros Hc. unfold DIP_adhering.call_method.
  rewrite (call_method_found _ _ _ h ctl _ _ "make_move"
             (DIP_adhering.BirdController_make_move
                (DIP_adhering.methods_at (Nat.pred recursion_limit))) Hc); [|done..].
  unfold DIP_adhering.BirdController_make_move, DIP_adhering.getattr.
  by rewrite (bind_ok _ _ _ _ _ (getattr_dict _ _ h ctl _ _ "bird" bird Hc eq_refl)).
Qed.

Lemma DIP_violating_make_move h ctl bird :
  h !! ctl = Some (Obj DIP_violating.BirdController {[ "bird" := bird ]}) ->
  DIP_violating.call_method (VRef ctl) "make_move" h
  = call_method DIP_violating.class_name DIP_violating.class_attr
      (DIP_violating.methods_at (Nat.pred recursion_limit)) bird "move" h.
Proof.
  intros Hc. unfold DIP_violating.call_method.
  rewrite (call_method_found _ _ _ h ctl _ _ "make_move"
             (DIP_violating.BirdController_make_move
                (DIP_violating.methods_at (Nat.pred recursion_limit))) Hc); [|done..].
  unfold DIP_violating.BirdController_make_move, DIP_violating.getattr.
  by rewrite (bind_ok _ _ _ _ _ (getattr_dict _ _ h ctl _ _ "bird" bird Hc eq_refl)).
Qed.

(** On a constructed entity, [move] called from inside [make_move], one call
    deeper, is [move] called directly. *)
Lemma DIP_adhering_move_tables h l c v :
  h !! l = Some (entity c v) ->
  call_method DIP_adhering.class_name DIP_adhering.class_attr
    (DIP_adhering.methods_at (Nat.pred recursion_limit)) (VRef l) "move" h
  = DIP_adhering.call_method (VRef l) "move" h.
Proof.
  intros Hl. unfold DIP_adhering.call_method. destruct c.
  - by rewrite !(call_method_found _ _ _ h l _ _ "move" DIP_adhering.Bird_move Hl).
  - by rewrite !(call_method_missing _ _ _ h l _ _ "move" Hl).
  - by rewrite !(call_method_found _ _ _ h l _ _ "move" DIP_adhering.Sparrow_move Hl).
  - by rewrite !(call_method_found _ _ _ h l _ _ "move" DIP_adhering.Penguin_move Hl).
Qed.

Lemma DIP_violating_move_tables h l c v :
  h !! l = Some (entity c v) ->
  call_method DIP_violating.class_name DIP_violating.class_attr
    (DIP_violating.methods_at (Nat.pred recursion_limit)) (VRef l) "move" h
  = DIP_violating.call_method (VRef l) "move" h.
Proof.
  intros Hl. unfold DIP_violating.call_method. destruct c.
  - by rewrite !(call_method_found _ _ _ h l _ _ "move" DIP_violating.Bird_move Hl).
  - by rewrite !(call_method_missing _ _ _ h l _ _ "move" Hl).
  - by rewrite !(call_method_found _ _ _ h l _ _ "move" DIP_violating.Sparrow_move Hl).
  - by rewrite !(call_method_found _ _ _ h l _ _ "move" DIP_violating.Penguin_move Hl).
Qed.

(** The same bird moves the same way in both variants. *)
Lemma DIP_move_same ha la hv lv c v :
  ha !! la = Some (entity c v) ->
  hv !! lv = Some (entity (DIP_same_class c) v) ->
  outcome (DIP_adhering.call_method (VRef la) "move") ha
  = outcome (DIP_violating.call_method (VRef lv) "move") hv.
Proof.
  intros Ha Hv. unfold outcome, DIP_adhering.call_method, DIP_violating.call_method.
  destruct c; simpl in Hv.
  - by rewrite (call_method_found _ _ _ ha la _ _ "move" DIP_adhering.Bird_move Ha),
      (call_method_found _ _ _ hv lv _ _ "move" DIP_violating.Bird_move Hv).
  - by rewrite (call_method_missing _ _ _ ha la _ _ "move" Ha),
      (call_method_missing _ _ _ hv lv _ _ "move" Hv).
  - rewrite (call_method_found _ _ _ ha la _ _ "move" DIP_adhering.Sparrow_move Ha),
      (call_method_found _ _ _ hv lv _ _ "move" DIP_violating.Sparrow_move Hv);
      [|done..].
    unfold DIP_adhering.Sparrow_move, DIP_violating.Sparrow_move,
      DIP_adhering.getattr, DIP_violating.getattr.
    by rewrite (name_suffix_run _ _ _ _ _ _ _ Ha), (name_suffix_run _ _ _ _ _ _ _ Hv).
  - rewrite (call_method_found _ _ _ ha la _ _ "move" DIP_adhering.Penguin_move Ha),
      (call_method_found _ _ _ hv lv _ _ "move" DIP_violating.Penguin_move Hv);
      [|done..].
    unfold DIP_adhering.Penguin_move, DIP_violating.Penguin_move,
      DIP_adhering.getattr, DIP_violating.getattr.
    by rewrite (name_suffix_run _ _ _ _ _ _ _ Ha), (name_suffix_run _ _ _ _ _ _ _ Hv).
Qed.

(** C10: in the adhering and in the violating variant of the dependency
    inversion section alike, [make_move] on a controller constructed from a
    bird gives exactly what the [move] of that bird gives, and the two
    variants give the same result for the same bird. *)
Theorem make_move_is_move_in_both (c : DIP_adhering.cls) (name : value)
    (ha ha1 : gmap loc (object DIP_adhering.cls))
    (hv hv1 : gmap loc (object DIP_violating.cls))
    (bird_a ctl_a bird_v ctl_v : loc) :
  ha !! bird_a = Some (entity c name) ->
  DIP_adhering.new DIP_adhering.BirdController [VRef bird_a] ha = (Ok ctl_a, ha1) ->
  hv !! bird_v = Some (entity (DIP_same_class c) name) ->
  DIP_violating.new DIP_violating.BirdController [VRef bird_v] hv = (Ok ctl_v, hv1) ->
  DIP_adhering.call_method (VRef ctl_a) "make_move" ha1
  = DIP_adhering.call_method (VRef bird_a) "move" ha1 /\
  DIP_violating.call_method (VRef ctl_v) "make_move" hv1
  = DIP_violating.call_method (VRef bird_v) "move" hv1 /\
  outcome (DIP_adhering.call_method (VRef ctl_a) "make_move") ha1
  = outcome (DIP_violating.call_method (VRef ctl_v) "make_move") hv1.
Proof.
  intros Ha Hna Hv Hnv.
  apply DIP_adhering_new_controller in Hna as [Hfa ->].
  apply DIP_violating_new_controller in Hnv as [Hfv ->].
  assert (Ha1 : <[ctl_a := Obj DIP_adhering.BirdController {[ "bird" := VRef bird_a ]}]> ha
                !! bird_a = Some (entity c name)).
  { rewrite lookup_insert_ne; [done|]. intros ->. by rewrite Hfa in Ha. }
  assert (Hv1 : <[ctl_v := Obj DIP_violating.BirdController {[ "bird" := VRef bird_v ]}]> hv
                !! bird_v = Some (entity (DIP_same_class c) name)).
  { rewrite lookup_insert_ne; [done|]. intros ->. by rewrite Hfv in Hv. }
  assert (Ea := DIP_adhering_make_move _ ctl_a (VRef bird_a) (lookup_insert_eq ha _ _)).
  assert (Ev := DIP_violating_make_move _ ctl_v (VRef bird_v) (lookup_insert_eq hv _ _)).
  rewrite (DIP_adhering_move_tables _ _ _ _ Ha1) in Ea.
  rewrite (DIP_violating_move_tables _ _ _ _ Hv1) in Ev.
  split; [done|]. split; [done|].
  unfold outcome at 1 2. rewrite Ea, Ev. by apply (DIP_move_same _ _ _ _ c name).
Qed.

Lemma make_move_is_move_in_both_witness :
  DIP_adhering.call_method (VRef 1) "make_move"
    (<[1 := Obj DIP_adhering.BirdController {[ "bird" := VRef 0 ]}]>
       (<[0 := entity DIP_adhering.Sparrow (VStr "Sparrow")]> ∅))
  = DIP_adhering.call_method (VRef 0) "move"
      (<[1 := Obj DIP_adhering.BirdController {[ "bird" := VRef 0 ]}]>
         (<[0 := entity DIP_adhering.Sparrow (VStr "Sparrow")]> ∅)) /\
  DIP_violating.call_method (VRef 1) "make_move"
    (<[1 := Obj DIP_violating.BirdController {[ "bird" := VRef 0 ]}]>
       (<[0 := entity DIP_violating.Sparrow (VStr "Sparrow")]> ∅))
  = DIP_violating.call_method (VRef 0) "move"
      (<[1 := Obj DIP_violating.BirdController {[ "bird" := VRef 0 ]}]>
         (<[0 := entity DIP_violating.Sparrow (VStr "Sparrow")]> ∅)) /\
  outcome (DIP_adhering.call_method (VRef 1) "make_move")
    (<[1 := Obj DIP_adhering.BirdController {[ "bird" := VRef 0 ]}]>
       (<[0 := entity DIP_adhering.Sparrow (VStr "Sparrow")]> ∅))
  = outcome (DIP_violating.call_method (VRef 1) "make_move")
      (<[1 := Obj DIP_violating.BirdController {[ "bird" := VRef 0 ]}]>
         (<[0 := entity DIP_violating.Sparrow (VStr "Sparrow")]> ∅)).
Proof.
  apply (make_move_is_move_in_both DIP_adhering.Sparrow (VStr "Sparrow")
           (<[0 := entity DIP_adhering.Sparrow (VStr "Sparrow")]> ∅) _
           (<[0 := entity DIP_violating.Sparrow (VStr "Sparrow")]> ∅) _
           0 1 0 1); vm_compute; reflexivity.
Defined.

(** * Further properties of the script *)

(** ** The two variants of the open-closed section *)

Lemma OCP_adhering_describe_new c n h :
  OCP_adhering.abstract c = false ->
  outcome (bird <- OCP_adhering.new c [VStr n];;
           OCP_adhering.call_method (VRef bird) "describe") h
  = Ok (VStr (n +:+ match c with
                    | OCP_adhering.Sparrow => " is a sparrow."
                    | OCP_adhering.Penguin => " is a penguin."
                    | _ => " is an ostrich."
                    end)).
Proof.
  intros Habs. unfold outcome, OCP_adhering.new, OCP_adhering.call_method.
  assert (Hinit : forall l h', h' !! l = Some (Obj c ∅) ->
            OCP_adhering.init c l [VStr n] h' = (Ok tt, <[l := entity c (VStr n)]> h')).
  { intros l h' Hl. by apply setattr_fresh. }
  destruct c; try discriminate Habs.
  - rewrite (new_then_call _ _ _ _ _ _ h _ _ "describe" OCP_adhering.Sparrow_describe
               eq_refl Habs Hinit); [|done..].
    unfold OCP_adhering.Sparrow_describe, OCP_adhering.getattr.
    by rewrite (name_suffix_run _ _ _ _ OCP_adhering.Sparrow (VStr n))
      by apply lookup_insert_eq.
  - rewrite (new_then_call _ _ _ _ _ _ h _ _ "describe" OCP_adhering.Penguin_describe
               eq_refl Habs Hinit); [|done..].
    unfold OCP_adhering.Penguin_describe, OCP_adhering.getattr.
    by rewrite (name_suffix_run _ _ _ _ OCP_adhering.Penguin (VStr n))
      by apply lookup_insert_eq.
  - rewrite (new_then_call _ _ _ _ _ _ h _ _ "describe" OCP_adhering.Ostrich_describe
               eq_refl Habs Hinit); [|done..].
    unfold OCP_adhering.Ostrich_describe, OCP_adhering.getattr.
    by rewrite (name_suffix_run _ _ _ _ OCP_adhering.Ostrich (VStr n))
      by apply lookup_insert_eq.
Qed.

Lemma OCP_violating_describe_new n sp h :
  outcome (bird <- OCP_violating.new OCP_violating.Bird [VStr n; VStr sp];;
           OCP_violating.call_method (VRef bird) "describe") h
  = Ok (VStr (n +:+
        (if String.eqb sp "sparrow" then " is a sparrow."
         else if String.eqb sp "penguin" then " is a penguin."
         else if String.eqb sp "ostrich" then " is an ostrich."
         else " is an unknown bird."))).
Proof.
  unfold outcome. rewrite (bind_ok _ _ _ _ _ (OCP_violating_new h _ _)).
  by rewrite (OCP_violating_describe _ _ n sp) by apply lookup_insert_eq.
Qed.

(** X1: a [Sparrow], [Penguin] or [Ostrich] of the adhering variant describes
    itself with exactly the text that the [Bird] of the violating variant
    gives for the species "sparrow", "penguin" or "ostrich". *)
Theorem OCP_variants_agree (n : string)
    (ha : gmap loc (object OCP_adhering.cls))
    (hv : gmap loc (object OCP_violating.cls)) :
  outcome (bird <- OCP_adhering.new OCP_adhering.Sparrow [VStr n];;
           OCP_adhering.call_method (VRef bird) "describe") ha
  = outcome (bird <- OCP_violating.new OCP_violating.Bird [VStr n; VStr "sparrow"];;
             OCP_violating.call_method (VRef bird) "describe") hv /\
  outcome (bird <- OCP_adhering.new OCP_adhering.Penguin [VStr n];;
           OCP_adhering.call_method (VRef bird) "describe") ha
  = outcome (bird <- OCP_violating.new OCP_violating.Bird [VStr n; VStr "penguin"];;
             OCP_violating.call_method (VRef bird) "describe") hv /\
  outcome (bird <- OCP_adhering.new OCP_adhering.Ostrich [VStr n];;
           OCP_adhering.call_method (VRef bird) "describe") ha
  = outcome (bird <- OCP_violating.new OCP_violating.Bird [VStr n; VStr "ostrich"];;
             OCP_violating.call_method (VRef bird) "describe") hv.
Proof.
  by rewrite !OCP_adhering_describe_new, !OCP_violating_describe_new.
Qed.

(** X2: in both variants every description is a text that is not empty and
    has the name of the bird in it, whatever the species. *)
Theorem OCP_describe_names_bird (n sp : string) (c : OCP_adhering.cls)
    (ha : gmap loc (object OCP_adhering.cls))
    (hv : gmap loc (object OCP_violating.cls)) :
  OCP_adhering.abstract c = false ->
  named_text n
    (outcome (bird <- OCP_adhering.new c [VStr n];;
              OCP_adhering.call_method (VRef bird) "describe") ha) /\
  named_text n
    (outcome (bird <- OCP_violating.new OCP_violating.Bird [VStr n; VStr sp];;
              OCP_violating.call_method (VRef bird) "describe") hv).
Proof.
  intros Habs. rewrite OCP_adhering_describe_new by done.
  rewrite OCP_violating_describe_new. split.
  - apply name_suffix_named_text. by destruct c.
  - apply name_suffix_named_text. by repeat case_match.
Qed.

Lemma OCP_describe_names_bird_witness :
  named_text "Rio"
    (outcome (bird <- OCP_adhering.new OCP_adhering.Ostrich [VStr "Rio"];;
              OCP_adhering.call_method (VRef bird) "describe") ∅) /\
  named_text "Rio"
    (outcome (bird <- OCP_violating.new OCP_violating.Bird [VStr "Rio"; VStr "parrot"];;
              OCP_violating.call_method (VRef bird) "describe") ∅).
Proof.
  apply (OCP_describe_names_bird "Rio" "parrot" OCP_adhering.Ostrich ∅ ∅).
  reflexivity.
Defined.

(** ** The two variants of the substitution section *)

Lemma LSP_adhering_move_new c n h :
  outcome (bird <- LSP_adhering.new c [VStr n];;
           LSP_adhering.call_method (VRef bird) "move") h
  = Ok match c with
       | LSP_adhering.Bird => VNone
       | LSP_adhering.Sparrow => VStr (n +:+ " is flying.")
       | LSP_adhering.Penguin => VStr (n +:+ " is swimming.")
       end.
Proof.
  unfold outcome, LSP_adhering.new, LSP_adhering.call_method.
  assert (Hinit : forall l h', h' !! l = Some (Obj c ∅) ->
            LSP_adhering.init c l [VStr n] h' = (Ok tt, <[l := entity c (VStr n)]> h')).
  { intros l h' Hl. by apply setattr_fresh. }
  destruct c.
  - by rewrite (new_then_call _ _ _ _ _ _ h _ _ "move" LSP_adhering.Bird_move
                  eq_refl eq_refl Hinit).
  - rewrite (new_then_call _ _ _ _ _ _ h _ _ "move" LSP_adhering.Sparrow_move
               eq_refl eq_refl Hinit); [|done..].
    unfold LSP_adhering.Sparrow_move, LSP_adhering.getattr.
    by rewrite (name_suffix_run _ _ _ _ LSP_adhering.Sparrow (VStr n))
      by apply lookup_insert_eq.
  - rewrite (new_then_call _ _ _ _ _ _ h _ _ "move" LSP_adhering.Penguin_move
               eq_refl eq_refl Hinit); [|done..].
    unfold LSP_adhering.Penguin_move, LSP_adhering.getattr.
    by rewrite (name_suffix_run _ _ _ _ LSP_adhering.Penguin (VStr n))
      by apply lookup_insert_eq.
Qed.

Lemma LSP_violating_move_new n ab h :
  outcome (bird <- LSP_violating.new LSP_violating.Bird [VStr n; VStr ab];;
           LSP_violating.call_method (VRef bird) "move") h
  = Ok (if String.eqb ab "flying" then VStr (n +:+ " is flying.")
        else if String.eqb ab "swimming" then VStr (n +:+ " is swimming.")
        else VNone).
Proof.
  unfold outcome. rewrite (bind_ok _ _ _ _ _ (LSP_violating_new h _ _)).
  by rewrite (LSP_violating_move _ _ n ab) by apply lookup_insert_eq.
Qed.

(** X3: the [Sparrow] and the [Penguin] of the adhering variant move exactly
    as the [Bird] of the violating variant does with the ability "flying" and
    "swimming", and the plain [Bird] of the adhering variant, whose [move] is
    [pass], as that [Bird] does with any other ability: it returns [None]. *)
Theorem LSP_variants_agree (n ability : string)
    (ha : gmap loc (object LSP_adhering.cls))
    (hv : gmap loc (object LSP_violating.cls)) :
  ability <> "flying" -> ability <> "swimming" ->
  outcome (bird <- LSP_adhering.new LSP_adhering.Sparrow [VStr n];;
           LSP_adhering.call_method (VRef bird) "move") ha
  = outcome (bird <- LSP_violating.new LSP_violating.Bird [VStr n; VStr "flying"];;
             LSP_violating.call_method (VRef bird) "move") hv /\
  outcome (bird <- LSP_adhering.new LSP_adhering.Penguin [VStr n];;
           LSP_adhering.call_method (VRef bird) "move") ha
  = outcome (bird <- LSP_violating.new LSP_violating.Bird [VStr n; VStr "swimming"];;
             LSP_violating.call_method (VRef bird) "move") hv /\
  outcome (bird <- LSP_adhering.new LSP_adhering.Bird [VStr n];;
           LSP_adhering.call_method (VRef bird) "move") ha
  = outcome (bird <- LSP_violating.new LSP_violating.Bird [VStr n; VStr ability];;
             LSP_violating.call_method (VRef bird) "move") hv.
Proof.
  intros H1 H2. rewrite !LSP_adhering_move_new, !LSP_violating_move_new.
  by rewrite (proj2 (String.eqb_neq _ _) H1), (proj2 (String.eqb_neq _ _) H2).
Qed.

Lemma LSP_variants_agree_witness :
  outcome (bird <- LSP_adhering.new LSP_adhering.Sparrow [VStr "Rio"];;
           LSP_adhering.call_method (VRef bird) "move") ∅
  = outcome (bird <- LSP_violating.new LSP_violating.Bird [VStr "Rio"; VStr "flying"];;
             LSP_violating.call_method (VRef bird) "move") ∅ /\
  outcome (bird <- LSP_adhering.new LSP_adhering.Penguin [VStr "Rio"];;
           LSP_adhering.call_method (VRef bird) "move") ∅
  = outcome (bird <- LSP_violating.new LSP_violating.Bird [VStr "Rio"; VStr "swimming"];;
             LSP_violating.call_method (VRef bird) "move") ∅ /\
  outcome (bird <- LSP_adhering.new LSP_adhering.Bird [VStr "Rio"];;
           LSP_adhering.call_method (VRef bird) "move") ∅
  = outcome (bird <- LSP_violating.new LSP_violating.Bird [VStr "Rio"; VStr "running"];;
             LSP_violating.call_method (VRef bird) "move") ∅.
Proof.
  apply (LSP_variants_agree "Rio" "running" ∅ ∅); discriminate.
Defined.

(** X4: in the adhering variant [move] can be called on every class of the
    section without an error, which is what lets a subclass stand for
    [Bird]: it returns a text with the name in it for the two subclasses and
    [None] for [Bird] itself, whose [move] is [pass]. *)
Theorem LSP_adhering_move_never_raises (c : LSP_adhering.cls) (n : string)
    (h : gmap loc (object LSP_adhering.cls)) :
  exists v,
    outcome (bird <- LSP_adhering.new c [VStr n];;
             LSP_adhering.call_method (VRef bird) "move") h = Ok v /\
    match c with
    | LSP_adhering.Bird => v = VNone
    | LSP_adhering.Sparrow | LSP_adhering.Penguin => named_text n (Ok v)
    end.
Proof.
  rewrite LSP_adhering_move_new. eexists. split; [done|].
  destruct c; [done|by apply name_suffix_named_text..].
Qed.

(** ** Interface segregation *)

Section MissingOperations.
Context {C : Type}.
Variable class_name : C -> string.
Variable class_attr : C -> string -> bool.
Variable defines_init : C -> bool.
Variable abstract : C -> bool.
Variable init : C -> loc -> list value -> M C unit.
Variable methods : C -> string -> option (loc -> M C value).

Lemma new_then_call_missing (h : gmap loc (object C)) c v m :
  defines_init c = true ->
  abstract c = false ->
  (forall l h', h' !! l = Some (Obj c ∅) ->
                init c l [v] h' = (Ok tt, <[l := entity c v]> h')) ->
  m <> "name" -> class_attr c m = false ->
  (bird <- new defines_init abstract init c [v];;
   call_method class_name class_attr methods (VRef bird) m) h
  = (Raise (AttributeError (class_name c) m), <[fresh (dom h) := entity c v]> h).
Proof.
  intros Hdef Habs Hinit Hm Hc.
  assert (Hargs : negb (defines_init c) && excess_args [v] = false)
    by (by rewrite Hdef).
  rewrite (bind_ok _ _ _ _ _
             (new_stores defines_init abstract init c [v] _ h Hargs Habs Hinit)).
  apply (call_method_missing _ _ _ _ _ c {[ "name" := v ]}); try done.
  - apply lookup_insert_eq.
  - by apply lookup_singleton_ne.
Qed.
End MissingOperations.

(** X5: in the adhering variant of the interface segregation section a bird
    answers [fly] or [swim] exactly when its class defines it ([Sparrow] flies,
    [Penguin] swims, a plain [Bird] does neither): the call returns the text
    of the operation then, and otherwise raises an [AttributeError] that names
    the class and the operation. *)
Theorem ISP_adhering_only_own_operation (c : ISP_adhering.cls) (m n : string)
    (h : gmap loc (object ISP_adhering.cls)) :
  ISP_adhering.abstract c = false -> m = "fly" \/ m = "swim" ->
  outcome (bird <- ISP_adhering.new c [VStr n];;
           ISP_adhering.call_method (VRef bird) m) h
  = if ISP_adhering.class_attr c m
    then Ok (VStr (n +:+ (if String.eqb m "fly" then " is flying."
                          else " is swimming.")))
    else Raise (AttributeError (ISP_adhering.class_name c) m).
Proof.
  intros Habs Hm. unfold outcome, ISP_adhering.new, ISP_adhering.call_method.
  assert (Hinit : forall l h', h' !! l = Some (Obj c ∅) ->
            ISP_adhering.init c l [VStr n] h' = (Ok tt, <[l := entity c (VStr n)]> h')).
  { intros l h' Hl. destruct c; try discriminate Habs; by apply setattr_fresh. }
  assert (Hname : m <> "name") by (by destruct Hm; subst).
  assert (Hdef : ISP_adhering.defines_init c = true) by (by destruct c).
  destruct (ISP_adhering.class_attr c m) eqn:Hc.
  - destruct c; try discriminate Habs; try discriminate Hc;
      destruct Hm; subst; try discriminate Hc.
    + rewrite (new_then_call _ _ _ _ _ _ h _ _ "fly" ISP_adhering.Sparrow_fly
                 eq_refl Habs Hinit); [|done..].
      unfold ISP_adhering.Sparrow_fly, ISP_adhering.getattr.
      by rewrite (name_suffix_run _ _ _ _ ISP_adhering.Sparrow (VStr n))
        by apply lookup_insert_eq.
    + rewrite (new_then_call _ _ _ _ _ _ h _ _ "swim" ISP_adhering.Penguin_swim
                 eq_refl Habs Hinit); [|done..].
      unfold ISP_adhering.Penguin_swim, ISP_adhering.getattr.
      by rewrite (name_suffix_run _ _ _ _ ISP_adhering.Penguin (VStr n))
        by apply lookup_insert_eq.
  - by rewrite (new_then_call_missing _ _ _ _ _ _ h c _ m Hdef Habs Hinit Hname Hc).
Qed.

Lemma ISP_adhering_only_own_operation_witness :
  outcome (bird <- ISP_adhering.new ISP_adhering.Penguin [VStr "Pingu"];;
           ISP_adhering.call_method (VRef bird) "fly") ∅
  = if ISP_adhering.class_attr ISP_adhering.Penguin "fly"
    then Ok (VStr ("Pingu" +:+ (if String.eqb "fly" "fly" then " is flying."
                                else " is swimming.")))
    else Raise (AttributeError (ISP_adhering.class_name ISP_adhering.Penguin) "fly").
Proof.
  apply (ISP_adhering_only_own_operation ISP_adhering.Penguin "fly" "Pingu" ∅).
  - reflexivity.
  - left. reflexivity.
Defined.

(** ** Construction *)

Section Construction.
Context {C : Type}.
Variable defines_init : C -> bool.
Variable abstract : C -> bool.
Variable init : C -> loc -> list value -> M C unit.
Implicit Types (h : gmap loc (object C)).

Lemma setattr_frame h l a v l' :
  l' <> l -> heap_after (setattr l a v) h !! l' = h !! l'.
Proof.
  intros Hl. unfold heap_after, setattr. destruct (h !! l); [|done].
  simpl. by rewrite lookup_insert_ne.
Qed.

Lemma new_frame h c args l0 o :
  (forall l h' l', l' <> l -> heap_after (init c l args) h' !! l' = h' !! l') ->
  h !! l0 = Some o ->
  heap_after (new defines_init abstract init c args) h !! l0 = Some o.
Proof.
  intros Hinit Hl. unfold heap_after, new.
  destruct (negb (defines_init c) && excess_args args); [done|].
  destruct (abstract c); [done|]. unfold bind at 1, alloc.
  set (l := fresh (dom h)). set (h1 := <[l := _]> h).
  assert (Hne : l0 <> l).
  { intros ->. pose proof (fresh_loc h) as F. fold l in F. by rewrite F in Hl. }
  assert (H1 : heap_after (init c l args) h1 !! l0 = Some o).
  { rewrite (Hinit l h1 l0 Hne). unfold h1. by rewrite lookup_insert_ne. }
  unfold heap_after in H1. unfold bind.
  by destruct (init c l args h1) as [[[]|e] h2].
Qed.

Lemma new_excess h c args :
  negb (defines_init c) && excess_args args = true ->
  new defines_init abstract init c args h = (Raise (TypeError BadArity), h).
Proof. intros Hargs. unfold new. by rewrite Hargs. Qed.

Lemma new_abstract h c args :
  negb (defines_init c) && excess_args args = false ->
  abstract c = true ->
  new defines_init abstract init c args h = (Raise (TypeError AbstractClass), h).
Proof. intros Hargs Habs. unfold new. by rewrite Hargs, Habs. Qed.

Lemma new_init_raises h c args e :
  negb (defines_init c) && excess_args args = false ->
  abstract c = false ->
  (forall l h', init c l args h' = (Raise e, h')) ->
  outcome (new defines_init abstract init c args) h = Raise e.
Proof.
  intros Hargs Habs Hinit. unfold outcome, new. rewrite Hargs, Habs.
  unfold bind at 1, alloc. by rewrite (bind_raise _ _ _ _ _ (Hinit _ _)).
Qed.
End Construction.

(** X6: what a construction gives in the closing example, for every class
    and every list of arguments.  [Bird], [Sparrow] and [Penguin] succeed
    with exactly one argument, the name, and raise a [TypeError] with none or
    with more.  The interfaces [Flyable] and [Singable], which have no
    [__init__], never succeed: with an argument the call is refused for the
    argument, and without one for the abstract method. *)
Theorem Solid_construction_outcome (c : Solid.cls) (args : list value)
    (h : gmap loc (object Solid.cls)) :
  outcome (Solid.new c args) h
  = match c with
    | Solid.Flyable | Solid.Singable =>
        match args with
        | [] => Raise (TypeError AbstractClass)
        | _ :: _ => Raise (TypeError BadArity)
        end
    | Solid.Bird | Solid.Sparrow | Solid.Penguin =>
        if Nat.eqb (length args) 1 then Ok (fresh (dom h))
        else Raise (TypeError BadArity)
    end.
Proof.
  destruct (Solid.abstract c) eqn:Habs.
  - unfold outcome, Solid.new.
    destruct c; try discriminate Habs; destruct args as [|v args];
      first [by rewrite new_abstract | by rewrite new_excess].
  - destruct args as [|v [|w args]].
    + rewrite Solid_new_no_name by done. by destruct c.
    + unfold outcome. rewrite Solid_new_entity by done. by destruct c.
    + destruct c; try discriminate Habs; by apply new_init_raises.
Qed.

(** X7: the [Bird] of the two variants that branch on a text takes exactly
    two arguments: with two, construction succeeds and the new bird holds the
    first as its name and the second as its species (or ability); with any
    other number it raises a [TypeError]. *)
Theorem two_field_Bird_construction (args : list value)
    (ho : gmap loc (object OCP_violating.cls))
    (hl : gmap loc (object LSP_violating.cls)) :
  match args with
  | [name; second] =>
      outcome (bird <- OCP_violating.new OCP_violating.Bird args;;
               a <- OCP_violating.getattr bird "name";;
               b <- OCP_violating.getattr bird "species";;
               ret (a, b)) ho = Ok (name, second) /\
      outcome (bird <- LSP_violating.new LSP_violating.Bird args;;
               a <- LSP_violating.getattr bird "name";;
               b <- LSP_violating.getattr bird "ability";;
               ret (a, b)) hl = Ok (name, second)
  | _ =>
      outcome (OCP_violating.new OCP_violating.Bird args) ho
      = Raise (TypeError BadArity) /\
      outcome (LSP_violating.new LSP_violating.Bird args) hl
      = Raise (TypeError BadArity)
  end.
Proof.
  destruct args as [|name [|second [|third args]]].
  - split; by apply new_init_raises.
  - split; by apply new_init_raises.
  - unfold outcome. split.
    + rewrite (bind_ok _ _ _ _ _ (OCP_violating_new ho _ _)).
      set (h1 := <[fresh (dom ho) := _]> ho).
      assert (Hl : h1 !! fresh (dom ho)
                   = Some (Obj OCP_violating.Bird
                             (<["species" := second]> {[ "name" := name ]})))
        by apply lookup_insert_eq.
      assert (Hn : OCP_violating.getattr (fresh (dom ho)) "name" h1 = (Ok name, h1)).
      { by apply (getattr_dict _ _ h1 _ _ _ "name" _ Hl). }
      assert (Hs : OCP_violating.getattr (fresh (dom ho)) "species" h1 = (Ok second, h1)).
      { by apply (getattr_dict _ _ h1 _ _ _ "species" _ Hl). }
      by rewrite (bind_ok _ _ _ _ _ Hn), (bind_ok _ _ _ _ _ Hs).
    + rewrite (bind_ok _ _ _ _ _ (LSP_violating_new hl _ _)).
      set (h1 := <[fresh (dom hl) := _]> hl).
      assert (Hl : h1 !! fresh (dom hl)
                   = Some (Obj LSP_violating.Bird
                             (<["ability" := second]> {[ "name" := name ]})))
        by apply lookup_insert_eq.
      assert (Hn : LSP_violating.getattr (fresh (dom hl)) "name" h1 = (Ok name, h1)).
      { by apply (getattr_dict _ _ h1 _ _ _ "name" _ Hl). }
      assert (Hs : LSP_violating.getattr (fresh (dom hl)) "ability" h1 = (Ok second, h1)).
      { by apply (getattr_dict _ _ h1 _ _ _ "ability" _ Hl). }
      by rewrite (bind_ok _ _ _ _ _ Hn), (bind_ok _ _ _ _ _ Hs).
  - split; by apply new_init_raises.
Qed.

Lemma bind_frame {C A B} (m : M C A) (k : A -> M C B) (h : gmap loc (object C)) l' :
  (forall h, heap_after m h !! l' = h !! l') ->
  (forall a h, heap_after (k a) h !! l' = h !! l') ->
  heap_after (bind m k) h !! l' = h !! l'.
Proof.
  intros Hm Hk. specialize (Hm h). unfold heap_after, bind in *.
  destruct (m h) as [[a|e] h1]; simpl in *; [|done].
  by rewrite <- Hm, <- (Hk a h1).
Qed.

Lemma Solid_init_frame c l args h l' :
  l' <> l -> heap_after (Solid.init c l args) h !! l' = h !! l'.
Proof.
  intros Hl. destruct c; destruct args as [|v [|w args]]; simpl; try done;
    by apply setattr_frame.
Qed.

Lemma OCP_violating_init_frame c l args h l' :
  l' <> l -> heap_after (OCP_violating.init c l args) h !! l' = h !! l'.
Proof.
  intros Hl. destruct args as [|v [|w [|x args]]]; try done.
  apply bind_frame; intros; by apply setattr_frame.
Qed.

Lemma DIP_adhering_init_frame c l args h l' :
  l' <> l -> heap_after (DIP_adhering.init c l args) h !! l' = h !! l'.
Proof.
  intros Hl. destruct c; destruct args as [|v [|w args]]; simpl; try done;
    by apply setattr_frame.
Qed.

(** X8: a construction, whether it succeeds or raises, never changes an
    object that exists already: the constructors write to the new object
    only.  Shown for the closing example, for the two-field [Bird] and for the
    section with the controller. *)
Theorem construction_keeps_existing_objects
    (cs : Solid.cls) (co : OCP_violating.cls) (cd : DIP_adhering.cls)
    (args : list value)
    (hs : gmap loc (object Solid.cls)) (ho : gmap loc (object OCP_violating.cls))
    (hd : gmap loc (object DIP_adhering.cls))
    (l : loc) (os : object Solid.cls) (oo : object OCP_violating.cls)
    (od : object DIP_adhering.cls) :
  hs !! l = Some os -> ho !! l = Some oo -> hd !! l = Some od ->
  heap_after (Solid.new cs args) hs !! l = Some os /\
  heap_after (OCP_violating.new co args) ho !! l = Some oo /\
  heap_after (DIP_adhering.new cd args) hd !! l = Some od.
Proof.
  intros Hs Ho Hd. repeat split.
  - apply new_frame; [|done]. intros; by apply Solid_init_frame.
  - apply new_frame; [|done]. intros; by apply OCP_violating_init_frame.
  - apply new_frame; [|done]. intros; by apply DIP_adhering_init_frame.
Qed.

Lemma construction_keeps_existing_objects_witness :
  heap_after (Solid.new Solid.Penguin [VStr "Penguin"])
    (<[0 := entity Solid.Sparrow (VStr "Sparrow")]> ∅) !! 0
  = Some (entity Solid.Sparrow (VStr "Sparrow")) /\
  heap_after (OCP_violating.new OCP_violating.Bird [VStr "Penguin"])
    (<[0 := entity OCP_violating.Bird (VStr "Sparrow")]> ∅) !! 0
  = Some (entity OCP_violating.Bird (VStr "Sparrow")) /\
  heap_after (DIP_adhering.new DIP_adhering.Bird [VStr "Penguin"])
    (<[0 := entity DIP_adhering.Sparrow (VStr "Sparrow")]> ∅) !! 0
  = Some (entity DIP_adhering.Sparrow (VStr "Sparrow")).
Proof.
  apply (construction_keeps_existing_objects
           Solid.Penguin OCP_violating.Bird DIP_adhering.Bird [VStr "Penguin"]
           (<[0 := entity Solid.Sparrow (VStr "Sparrow")]> ∅)
           (<[0 := entity OCP_violating.Bird (VStr "Sparrow")]> ∅)
           (<[0 := entity DIP_adhering.Sparrow (VStr "Sparrow")]> ∅) 0);
    vm_compute; reflexivity.
Defined.

(** X9: two constructions in a row give two different objects, and after the
    second each of them still is the entity it was built as: the second
    construction does not take the place of the first. *)
Theorem two_constructions_two_objects (c1 c2 : Solid.cls) (n1 n2 : value)
    (h h' : gmap loc (object Solid.cls)) (b1 b2 : loc) :
  (first <- Solid.new c1 [n1];;
   second <- Solid.new c2 [n2];;
   ret (first, second)) h = (Ok (b1, b2), h') ->
  b1 <> b2 /\
  h' !! b1 = Some (entity c1 n1) /\ h' !! b2 = Some (entity c2 n2) /\
  h !! b1 = None /\ h !! b2 = None.
Proof.
  intros H.
  destruct (Solid.abstract c1) eqn:A1.
  { unfold bind at 1, Solid.new in H.
    destruct c1; try discriminate A1; by rewrite new_excess in H. }
  rewrite (bind_ok _ _ _ _ _ (Solid_new_entity c1 n1 h A1)) in H.
  set (l1 := fresh (dom h)) in *. set (h1 := <[l1 := entity c1 n1]> h) in *.
  destruct (Solid.abstract c2) eqn:A2.
  { unfold bind at 1, Solid.new in H.
    destruct c2; try discriminate A2; by rewrite new_excess in H. }
  rewrite (bind_ok _ _ _ _ _ (Solid_new_entity c2 n2 h1 A2)) in H.
  injection H as <- <- <-.
  pose proof (fresh_loc h) as F1. fold l1 in F1.
  pose proof (fresh_loc h1) as F2.
  assert (Hne : l1 <> fresh (dom h1)).
  { intros E. rewrite <- E in F2. unfold h1 in F2. by rewrite lookup_insert_eq in F2. }
  split; [done|]. split; [|split; [|split; [done|]]].
  - rewrite lookup_insert_ne by done. apply lookup_insert_eq.
  - apply lookup_insert_eq.
  - unfold h1 in F2. by rewrite lookup_insert_ne in F2.
Qed.

Lemma two_constructions_two_objects_witness :
  0 <> 1 /\
  (<[1 := entity Solid.Penguin (VStr "Penguin")]>
     (<[0 := entity Solid.Sparrow (VStr "Sparrow")]> ∅)
     : gmap loc (object Solid.cls)) !! 0
  = Some (entity Solid.Sparrow (VStr "Sparrow")) /\
  (<[1 := entity Solid.Penguin (VStr "Penguin")]>
     (<[0 := entity Solid.Sparrow (VStr "Sparrow")]> ∅)
     : gmap loc (object Solid.cls)) !! 1
  = Some (entity Solid.Penguin (VStr "Penguin")) /\
  (∅ : gmap loc (object Solid.cls)) !! 0 = None /\
  (∅ : gmap loc (object Solid.cls)) !! 1 = None.
Proof.
  apply (two_constructions_two_objects Solid.Sparrow Solid.Penguin
           (VStr "Sparrow") (VStr "Penguin") ∅).
  vm_compute. reflexivity.
Defined.

(** ** No method writes *)

Ltac pure_body :=
  repeat first
    [ apply pure_ret | apply pure_raise | apply pure_getattr
    | apply pure_bind; [|intros]
    | match goal with |- pure (if ?b then _ else _) => destruct b end ].

Lemma OCP_adhering_methods_pure c m body l :
  OCP_adhering.methods c m = Some body -> pure (body l).
Proof.
  unfold OCP_adhering.methods. destruct (String.eqb m "describe"); [|done].
  intros [= <-]. destruct c; first [apply pure_ret | unfold
    OCP_adhering.Sparrow_describe, OCP_adhering.Penguin_describe,
    OCP_adhering.Ostrich_describe, OCP_adhering.getattr; pure_body].
Qed.

Lemma OCP_violating_methods_pure c m body l :
  OCP_violating.methods c m = Some body -> pure (body l).
Proof.
  unfold OCP_violating.methods. destruct (String.eqb m "describe"); [|done].
  intros [= <-]. unfold OCP_violating.Bird_describe, OCP_violating.getattr.
  pure_body.
Qed.

Lemma LSP_adhering_methods_pure c m body l :
  LSP_adhering.methods c m = Some body -> pure (body l).
Proof.
  unfold LSP_adhering.methods. destruct (String.eqb m "move"); [|done].
  intros [= <-]. destruct c; first [apply pure_ret | unfold
    LSP_adhering.Sparrow_move, LSP_adhering.Penguin_move,
    LSP_adhering.getattr; pure_body].
Qed.

Lemma LSP_violating_methods_pure c m body l :
  LSP_violating.methods c m = Some body -> pure (body l).
Proof.
  unfold LSP_violating.methods. destruct (String.eqb m "move"); [|done].
  intros [= <-]. unfold LSP_violating.Bird_move, LSP_violating.getattr.
  pure_body.
Qed.

Lemma ISP_adhering_methods_pure c m body l :
  ISP_adhering.methods c m = Some body -> pure (body l).
Proof.
  intros H. destruct c; unfold ISP_adhering.methods in H;
    repeat (destruct (String.eqb m _)); simplify_eq;
    first [apply pure_ret | unfold ISP_adhering.Sparrow_fly,
      ISP_adhering.Penguin_swim, ISP_adhering.getattr; pure_body].
Qed.

Lemma DIP_adhering_methods_at_pure depth c m body l :
  DIP_adhering.methods_at depth c m = Some body -> pure (body l).
Proof.
  revert c m body l. induction depth as [|d IH]; intros c m body l H.
  - simpl in H. destruct (DIP_adhering.class_attr c m); simplify_eq. apply pure_raise.
  - destruct c; simpl in H; destruct (String.eqb m _); simplify_eq.
    + apply pure_ret.
    + apply pure_bind; [apply pure_getattr|]. intros bird.
      apply pure_call_method, IH.
    + unfold DIP_adhering.Sparrow_move, DIP_adhering.getattr. pure_body.
    + unfold DIP_adhering.Penguin_move, DIP_adhering.getattr. pure_body.
Qed.

Lemma DIP_adhering_methods_pure c m body l :
  DIP_adhering.methods c m = Some body -> pure (body l).
Proof. apply DIP_adhering_methods_at_pure. Qed.

Lemma DIP_violating_methods_at_pure depth c m body l :
  DIP_violating.methods_at depth c m = Some body -> pure (body l).
Proof.
  revert c m body l. induction depth as [|d IH]; intros c m body l H.
  - simpl in H. destruct (DIP_violating.class_attr c m); simplify_eq. apply pure_raise.
  - destruct c; simpl in H; destruct (String.eqb m _); simplify_eq.
    + apply pure_ret.
    + apply pure_bind; [apply pure_getattr|]. intros bird.
      apply pure_call_method, IH.
    + unfold DIP_violating.Sparrow_move, DIP_violating.getattr. pure_body.
    + unfold DIP_violating.Penguin_move, DIP_violating.getattr. pure_body.
Qed.

Lemma DIP_violating_methods_pure c m body l :
  DIP_violating.methods c m = Some body -> pure (body l).
Proof. apply DIP_violating_methods_at_pure. Qed.

(** X10: no method of the sections on the open-closed, substitution,
    interface segregation and dependency inversion principles writes to the
    heap: whatever value a method is called on and whatever the method name,
    the heap after the call, failed or not, is the heap before.  Only
    [__init__] assigns attributes. *)
Theorem method_calls_leave_heap_unchanged (v : value) (m : string)
    (h1 : gmap loc (object OCP_adhering.cls))
    (h2 : gmap loc (object OCP_violating.cls))
    (h3 : gmap loc (object LSP_adhering.cls))
    (h4 : gmap loc (object LSP_violating.cls))
    (h5 : gmap loc (object ISP_adhering.cls))
    (h6 : gmap loc (object DIP_adhering.cls))
    (h7 : gmap loc (object DIP_violating.cls)) :
  heap_after (OCP_adhering.call_method v m) h1 = h1 /\
  heap_after (OCP_violating.call_method v m) h2 = h2 /\
  heap_after (LSP_adhering.call_method v m) h3 = h3 /\
  heap_after (LSP_violating.call_method v m) h4 = h4 /\
  heap_after (ISP_adhering.call_method v m) h5 = h5 /\
  heap_after (DIP_adhering.call_method v m) h6 = h6 /\
  heap_after (DIP_violating.call_method v m) h7 = h7.
Proof.
  repeat split; apply pure_call_method.
  - apply OCP_adhering_methods_pure.
  - apply OCP_violating_methods_pure.
  - apply LSP_adhering_methods_pure.
  - apply LSP_violating_methods_pure.
  - apply ISP_adhering_methods_pure.
  - apply DIP_adhering_methods_pure.
  - apply DIP_violating_methods_pure.
Qed.

(** ** More on the bird controllers *)

(** [move] on a constructed entity of the adhering variant. *)
Lemma DIP_adhering_move_entity h l c v :
  h !! l = Some (entity c v) ->
  outcome (DIP_adhering.call_method (VRef l) "move") h
  = match c with
    | DIP_adhering.Bird => Ok VNone
    | DIP_adhering.BirdController => Raise (AttributeError "BirdController" "move")
    | DIP_adhering.Sparrow => Ok (VStr (py_format v +:+ " is flying."))
    | DIP_adhering.Penguin => Ok (VStr (py_format v +:+ " is swimming."))
    end.
Proof.
  intros Hl. unfold outcome, DIP_adhering.call_method. destruct c.
  - by rewrite (call_method_found _ _ _ h l _ _ "move" DIP_adhering.Bird_move Hl).
  - by rewrite (call_method_missing _ _ _ h l _ _ "move" Hl).
  - rewrite (call_method_found _ _ _ h l _ _ "move" DIP_adhering.Sparrow_move Hl);
      [|done..].
    unfold DIP_adhering.Sparrow_move, DIP_adhering.getattr.
    by rewrite (name_suffix_run _ _ _ _ _ _ _ Hl).
  - rewrite (call_method_found _ _ _ h l _ _ "move" DIP_adhering.Penguin_move Hl);
      [|done..].
    unfold DIP_adhering.Penguin_move, DIP_adhering.getattr.
    by rewrite (name_suffix_run _ _ _ _ _ _ _ Hl).
Qed.

Lemma DIP_violating_move_entity h l c v :
  h !! l = Some (entity c v) ->
  outcome (DIP_violating.call_method (VRef l) "move") h
  = match c with
    | DIP_violating.Bird => Ok VNone
    | DIP_violating.BirdController => Raise (AttributeError "BirdController" "move")
    | DIP_violating.Sparrow => Ok (VStr (py_format v +:+ " is flying."))
    | DIP_violating.Penguin => Ok (VStr (py_format v +:+ " is swimming."))
    end.
Proof.
  intros Hl. unfold outcome, DIP_violating.call_method. destruct c.
  - by rewrite (call_method_found _ _ _ h l _ _ "move" DIP_violating.Bird_move Hl).
  - by rewrite (call_method_missing _ _ _ h l _ _ "move" Hl).
  - rewrite (call_method_found _ _ _ h l _ _ "move" DIP_violating.Sparrow_move Hl);
      [|done..].
    unfold DIP_violating.Sparrow_move, DIP_violating.getattr.
    by rewrite (name_suffix_run _ _ _ _ _ _ _ Hl).
  - rewrite (call_method_found _ _ _ h l _ _ "move" DIP_violating.Penguin_move Hl);
      [|done..].
    unfold DIP_violating.Penguin_move, DIP_violating.getattr.
    by rewrite (name_suffix_run _ _ _ _ _ _ _ Hl).
Qed.

(** X11: the controller keeps a reference to its bird, not a copy of it: when
    the name of the bird is assigned anew after the controller was built,
    [make_move] speaks of the bird under its new name. *)
Theorem controller_follows_its_bird (c : DIP_adhering.cls) (old renamed : string)
    (h h1 : gmap loc (object DIP_adhering.cls)) (bird ctl : loc) :
  h !! bird = Some (entity c (VStr old)) ->
  DIP_adhering.new DIP_adhering.BirdController [VRef bird] h = (Ok ctl, h1) ->
  outcome (_ <- setattr bird "name" (VStr renamed);;
           DIP_adhering.call_method (VRef ctl) "make_move") h1
  = match c with
    | DIP_adhering.Bird => Ok VNone
    | DIP_adhering.BirdController => Raise (AttributeError "BirdController" "move")
    | DIP_adhering.Sparrow => Ok (VStr (renamed +:+ " is flying."))
    | DIP_adhering.Penguin => Ok (VStr (renamed +:+ " is swimming."))
    end.
Proof.
  intros Hb Hnew. apply DIP_adhering_new_controller in Hnew as [Hf ->].
  assert (Hne : ctl <> bird) by (intros ->; by rewrite Hf in Hb).
  set (h1 := <[ctl := _]> h).
  assert (Hb1 : h1 !! bird = Some (entity c (VStr old))).
  { unfold h1. by rewrite lookup_insert_ne. }
  unfold outcome, bind at 1, setattr. rewrite Hb1. simpl.
  rewrite insert_singleton_eq. fold (entity c (VStr renamed)).
  set (h2 := <[bird := _]> h1).
  assert (Hb2 : h2 !! bird = Some (entity c (VStr renamed))) by apply lookup_insert_eq.
  assert (Hc2 : h2 !! ctl
                = Some (Obj DIP_adhering.BirdController {[ "bird" := VRef bird ]})).
  { unfold h2. rewrite lookup_insert_ne by done. apply lookup_insert_eq. }
  rewrite (DIP_adhering_make_move _ _ _ Hc2),
    (DIP_adhering_move_tables _ _ _ _ Hb2).
  apply (DIP_adhering_move_entity _ _ _ _ Hb2).
Qed.

Lemma controller_follows_its_bird_witness :
  outcome (_ <- setattr 0 "name" (VStr "Jack");;
           DIP_adhering.call_method (VRef 1) "make_move")
    (<[1 := Obj DIP_adhering.BirdController {[ "bird" := VRef 0 ]}]>
       (<[0 := entity DIP_adhering.Sparrow (VStr "Sparrow")]> ∅))
  = Ok (VStr ("Jack" +:+ " is flying.")).
Proof.
  apply (controller_follows_its_bird DIP_adhering.Sparrow "Sparrow" "Jack"
           (<[0 := entity DIP_adhering.Sparrow (VStr "Sparrow")]> ∅) _ 0 1);
    vm_compute; reflexivity.
Defined.

(** X12: [BirdController.__init__] stores whatever it is given and checks
    nothing; the failure comes when [make_move] is called.  On a controller
    built from a text or from [None] it raises the [AttributeError] of that
    value, and on a controller built from another controller the
    [AttributeError] of [BirdController], which has no [move].  Both variants
    behave so. *)
Theorem controller_fails_late (s : string) (inner : value)
    (ha : gmap loc (object DIP_adhering.cls))
    (hv : gmap loc (object DIP_violating.cls)) :
  outcome (ctl <- DIP_adhering.new DIP_adhering.BirdController [VStr s];;
           DIP_adhering.call_method (VRef ctl) "make_move") ha
  = Raise (AttributeError "str" "move") /\
  outcome (ctl <- DIP_adhering.new DIP_adhering.BirdController [VNone];;
           DIP_adhering.call_method (VRef ctl) "make_move") ha
  = Raise (AttributeError "NoneType" "move") /\
  outcome (ctl <- DIP_adhering.new DIP_adhering.BirdController [inner];;
           outer <- DIP_adhering.new DIP_adhering.BirdController [VRef ctl];;
           DIP_adhering.call_method (VRef outer) "make_move") ha
  = Raise (AttributeError "BirdController" "move") /\
  outcome (ctl <- DIP_violating.new DIP_violating.BirdController [VStr s];;
           DIP_violating.call_method (VRef ctl) "make_move") hv
  = Raise (AttributeError "str" "move") /\
  outcome (ctl <- DIP_violating.new DIP_violating.BirdController [VNone];;
           DIP_violating.call_method (VRef ctl) "make_move") hv
  = Raise (AttributeError "NoneType" "move") /\
  outcome (ctl <- DIP_violating.new DIP_violating.BirdController [inner];;
           outer <- DIP_violating.new DIP_violating.BirdController [VRef ctl];;
           DIP_violating.call_method (VRef outer) "make_move") hv
  = Raise (AttributeError "BirdController" "move").
Proof.
  assert (Na : forall b h, DIP_adhering.new DIP_adhering.BirdController [b] h
            = (Ok (fresh (dom h)),
               <[fresh (dom h) := Obj DIP_adhering.BirdController {[ "bird" := b ]}]> h)).
  { intros b h. apply new_stores; [done|done|]. intros l h' Hl. by apply setattr_fresh. }
  assert (Nv : forall b h, DIP_violating.new DIP_violating.BirdController [b] h
            = (Ok (fresh (dom h)),
               <[fresh (dom h) := Obj DIP_violating.BirdController {[ "bird" := b ]}]> h)).
  { intros b h. apply new_stores; [done|done|]. intros l h' Hl. by apply setattr_fresh. }
  unfold outcome. repeat split.
  - rewrite (bind_ok _ _ _ _ _ (Na _ ha)).
    by rewrite (DIP_adhering_make_move _ _ _ (lookup_insert_eq ha _ _)).
  - rewrite (bind_ok _ _ _ _ _ (Na _ ha)).
    by rewrite (DIP_adhering_make_move _ _ _ (lookup_insert_eq ha _ _)).
  - rewrite (bind_ok _ _ _ _ _ (Na _ ha)). set (h1 := <[fresh (dom ha) := _]> ha).
    rewrite (bind_ok _ _ _ _ _ (Na _ h1)).
    rewrite (DIP_adhering_make_move _ _ _ (lookup_insert_eq h1 _ _)).
    assert (Hin : <[fresh (dom h1) := Obj DIP_adhering.BirdController
                                        {[ "bird" := VRef (fresh (dom ha)) ]}]> h1
                  !! fresh (dom ha)
                  = Some (Obj DIP_adhering.BirdController {[ "bird" := inner ]})).
    { rewrite lookup_insert_ne; [apply lookup_insert_eq|].
      intros E. pose proof (fresh_loc h1) as F. rewrite E in F.
      unfold h1 in F. by rewrite lookup_insert_eq in F. }
    by rewrite (call_method_missing _ _ _ _ _ _ _ "move" Hin).
  - rewrite (bind_ok _ _ _ _ _ (Nv _ hv)).
    by rewrite (DIP_violating_make_move _ _ _ (lookup_insert_eq hv _ _)).
  - rewrite (bind_ok _ _ _ _ _ (Nv _ hv)).
    by rewrite (DIP_violating_make_move _ _ _ (lookup_insert_eq hv _ _)).
  - rewrite (bind_ok _ _ _ _ _ (Nv _ hv)). set (h1 := <[fresh (dom hv) := _]> hv).
    rewrite (bind_ok _ _ _ _ _ (Nv _ h1)).
    rewrite (DIP_violating_make_move _ _ _ (lookup_insert_eq h1 _ _)).
    assert (Hin : <[fresh (dom h1) := Obj DIP_violating.BirdController
                                        {[ "bird" := VRef (fresh (dom hv)) ]}]> h1
                  !! fresh (dom hv)
                  = Some (Obj DIP_violating.BirdController {[ "bird" := inner ]})).
    { rewrite lookup_insert_ne; [apply lookup_insert_eq|].
      intros E. pose proof (fresh_loc h1) as F. rewrite E in F.
      unfold h1 in F. by rewrite lookup_insert_eq in F. }
    by rewrite (call_method_missing _ _ _ _ _ _ _ "move" Hin).
Qed.

(** X13: the two variants of the dependency inversion section differ on
    [Bird] itself.  In the adhering variant [Bird] is abstract and cannot be
    built, whatever the arguments; in the violating variant it can, and a
    controller built on a plain [Bird] returns [None] from [make_move], the
    result of a [move] that is [pass]. *)
Theorem DIP_variants_differ_on_Bird (n : string) (args : list value)
    (ha : gmap loc (object DIP_adhering.cls))
    (hv : gmap loc (object DIP_violating.cls)) :
  DIP_adhering.new DIP_adhering.Bird args ha = (Raise (TypeError AbstractClass), ha) /\
  outcome (bird <- DIP_violating.new DIP_violating.Bird [VStr n];;
           ctl <- DIP_violating.new DIP_violating.BirdController [VRef bird];;
           DIP_violating.call_method (VRef ctl) "make_move") hv
  = Ok VNone.
Proof.
  split; [by apply new_abstract|]. unfold outcome.
  assert (Nb : DIP_violating.new DIP_violating.Bird [VStr n] hv
            = (Ok (fresh (dom hv)),
               <[fresh (dom hv) := entity DIP_violating.Bird (VStr n)]> hv)).
  { apply new_stores; [done|done|]. intros l h' Hl. by apply setattr_fresh. }
  rewrite (bind_ok _ _ _ _ _ Nb). set (b := fresh (dom hv)).
  set (h1 := <[b := _]> hv).
  assert (Nc : DIP_violating.new DIP_violating.BirdController [VRef b] h1
            = (Ok (fresh (dom h1)),
               <[fresh (dom h1) := Obj DIP_violating.BirdController
                                     {[ "bird" := VRef b ]}]> h1)).
  { apply new_stores; [done|done|]. intros l h' Hl. by apply setattr_fresh. }
  rewrite (bind_ok _ _ _ _ _ Nc).
  rewrite (DIP_violating_make_move _ _ _ (lookup_insert_eq h1 _ _)).
  assert (Hb : <[fresh (dom h1) := Obj DIP_violating.BirdController
                                     {[ "bird" := VRef b ]}]> h1 !! b
               = Some (entity DIP_violating.Bird (VStr n))).
  { rewrite lookup_insert_ne; [apply lookup_insert_eq|].
    intros E. pose proof (fresh_loc h1) as F. rewrite E in F.
    unfold h1 in F. by rewrite lookup_insert_eq in F. }
  rewrite (DIP_violating_move_tables _ _ _ _ Hb).
  apply (DIP_violating_move_entity _ _ _ _ Hb).
Qed.

(** X14: a class that still has an abstract method can never be built, and
    the attempt leaves the heap as it was.  The abstract [Bird] of the
    adhering open-closed variant and the [Bird] of the violating interface
    segregation variant define [__init__], so they are refused for the
    abstract method whatever the arguments; the latter is the only class of
    its section, so no object of that section can exist.  The interfaces
    [Flyable] and [Swimmable] define no [__init__]: with an argument they are
    refused for the argument, and without one for the abstract method. *)
Theorem abstract_classes_cannot_be_built (args : list value)
    (c : ISP_violating.cls)
    (h1 : gmap loc (object OCP_adhering.cls))
    (h2 : gmap loc (object ISP_adhering.cls))
    (h3 : gmap loc (object ISP_violating.cls)) :
  OCP_adhering.new OCP_adhering.Bird args h1 = (Raise (TypeError AbstractClass), h1) /\
  ISP_adhering.new ISP_adhering.Flyable args h2
  = (Raise (TypeError match args with
                      | [] => AbstractClass
                      | _ :: _ => BadArity
                      end), h2) /\
  ISP_adhering.new ISP_adhering.Swimmable args h2
  = (Raise (TypeError match args with
                      | [] => AbstractClass
                      | _ :: _ => BadArity
                      end), h2) /\
  ISP_violating.new c args h3 = (Raise (TypeError AbstractClass), h3).
Proof.
  split; [by apply new_abstract|]. split; [|split].
  - destruct args; [by apply new_abstract|by apply new_excess].
  - destruct args; [by apply new_abstract|by apply new_excess].
  - by apply new_abstract.
Qed.

(** ** The dispatcher, case by case *)

(** X15: what [bird_info] gives for an entity built with the name [n], for
    every class of the closing example.  A [Sparrow] of any name gets
    "<n> says: <n> is singing. and <n> is flying."; a plain [Bird] and a
    [Penguin] make it raise for the missing [sing], the first operation it
    asks for (a plain [Bird] has no [fly] either, which is never reached);
    the interfaces, which have no [__init__] to take the name, refuse the
    argument, so nothing is built. *)
Theorem bird_info_by_class (c : Solid.cls) (n : string)
    (h : gmap loc (object Solid.cls)) :
  outcome (bird <- Solid.new c [VStr n];; Solid.bird_info (VRef bird)) h
  = match c with
    | Solid.Sparrow =>
        Ok (VStr (n +:+ " says: " +:+ (n +:+ " is singing.") +:+ " and "
                  +:+ (n +:+ " is flying.")))
    | Solid.Bird => Raise (AttributeError "Bird" "sing")
    | Solid.Penguin => Raise (AttributeError "Penguin" "sing")
    | Solid.Flyable | Solid.Singable => Raise (TypeError BadArity)
    end.
Proof.
  unfold outcome. destruct c.
  - unfold Solid.new.
    by rewrite (bind_raise _ _ _ _ _
                  (new_excess Solid.defines_init Solid.abstract Solid.init h
                     Solid.Flyable [VStr n] eq_refl)).
  - unfold Solid.new.
    by rewrite (bind_raise _ _ _ _ _
                  (new_excess Solid.defines_init Solid.abstract Solid.init h
                     Solid.Singable [VStr n] eq_refl)).
  - rewrite (bind_ok _ _ _ _ _ (Solid_new_entity Solid.Bird _ h eq_refl)).
    by rewrite (Solid_bird_info_no_sing _ _ Solid.Bird (VStr n)
                  (lookup_insert_eq _ _ _) eq_refl).
  - rewrite (bind_ok _ _ _ _ _ (Solid_new_entity Solid.Sparrow _ h eq_refl)).
    by rewrite (Solid_bird_info_Sparrow _ _ _ (lookup_insert_eq _ _ _)).
  - rewrite (bind_ok _ _ _ _ _ (Solid_new_entity Solid.Penguin _ h eq_refl)).
    by rewrite (Solid_bird_info_no_sing _ _ Solid.Penguin (VStr n)
                  (lookup_insert_eq _ _ _) eq_refl).
Qed.

(** X16: [bird_info] asks for the name first: handed a text or [None] in
    place of a bird, it raises the [AttributeError] of that value for [name]
    and never comes to [sing] or [fly]. *)
Theorem bird_info_on_other_values (s : string)
    (h : gmap loc (object Solid.cls)) :
  outcome (Solid.bird_info (VStr s)) h = Raise (AttributeError "str" "name") /\
  outcome (Solid.bird_info VNone) h = Raise (AttributeError "NoneType" "name").
Proof. unfold outcome. by rewrite !Solid_bird_info_run. Qed.

(** ** The single responsibility section *)

Section CallsWithArguments.
Context {C : Type}.
Variable class_name : C -> string.
Variable class_attr : C -> string -> bool.
Variable methods_with : C -> string -> option (loc -> list value -> M C value).
Implicit Types (h : gmap loc (object C)).

Lemma call_method_with_found h l c d m body args :
  h !! l = Some (Obj c d) -> d !! m = None ->
  class_attr c m = true -> methods_with c m = Some body ->
  call_method_with class_name class_attr methods_with (VRef l) m args h
  = body l args h.
Proof.
  intros Hl Hd Ha Hm. unfold call_method_with, bind at 1. simpl.
  unfold getattr, bind, deref. rewrite Hl. simpl. rewrite Hd, Ha. simpl.
  unfold bind, deref. rewrite Hl. simpl. by rewrite Hm.
Qed.

Lemma call_method_with_missing h l c d m args :
  h !! l = Some (Obj c d) -> d !! m = None -> class_attr c m = false ->
  call_method_with class_name class_attr methods_with (VRef l) m args h
  = (Raise (AttributeError (class_name c) m), h).
Proof.
  intros Hl Hd Ha. unfold call_method_with, bind at 1. simpl.
  unfold getattr, bind, deref. rewrite Hl. simpl. by rewrite Hd, Ha.
Qed.
End CallsWithArguments.

Lemma SRP_adhering_new_helper c h :
  c = SRP_adhering.BirdSound \/ c = SRP_adhering.BirdMovement ->
  SRP_adhering.new c [] h
  = (Ok (fresh (dom h)), <[fresh (dom h) := Obj c ∅]> h).
Proof.
  intros Hc. apply new_stores; [by destruct Hc; subst|done|]. intros l h' Hl.
  destruct Hc; subst; simpl; unfold ret; by rewrite insert_id.
Qed.

(** [make_sound] and [move] on a helper object built without arguments. *)
Lemma SRP_adhering_helper_call c m body args h :
  c = SRP_adhering.BirdSound \/ c = SRP_adhering.BirdMovement ->
  SRP_adhering.class_attr c m = true ->
  SRP_adhering.methods c m = Some body ->
  (helper <- SRP_adhering.new c [];;
   SRP_adhering.call_method_with (VRef helper) m args) h
  = body (fresh (dom h)) args (<[fresh (dom h) := Obj c ∅]> h).
Proof.
  intros Hc Ha Hb.
  rewrite (bind_ok _ _ _ _ _ (SRP_adhering_new_helper c h Hc)).
  unfold SRP_adhering.call_method_with.
  by apply (call_method_with_found _ _ _ _ _ c ∅ m body args
              (lookup_insert_eq h _ _)).
Qed.

(** X17: in the adhering variant of the single responsibility section the
    behaviour has left [Bird]: a [Bird] has neither [make_sound] nor [move].
    [BirdSound] and [BirdMovement] are built without arguments and refuse
    one; their [make_sound] and [move] take the bird as their argument,
    return [None] for any value passed and raise a [TypeError] when called
    without it.  The two methods of the violating [Bird] return [None] as
    well. *)
Theorem SRP_behaviour_is_stubbed (n : string) (bird : value)
    (ha : gmap loc (object SRP_adhering.cls))
    (hv : gmap loc (object SRP_violating.cls)) :
  outcome (sound <- SRP_adhering.new SRP_adhering.BirdSound [];;
           SRP_adhering.call_method_with (VRef sound) "make_sound" [bird]) ha
  = Ok VNone /\
  outcome (movement <- SRP_adhering.new SRP_adhering.BirdMovement [];;
           SRP_adhering.call_method_with (VRef movement) "move" [bird]) ha
  = Ok VNone /\
  outcome (sound <- SRP_adhering.new SRP_adhering.BirdSound [];;
           SRP_adhering.call_method_with (VRef sound) "make_sound" []) ha
  = Raise (TypeError BadArity) /\
  outcome (movement <- SRP_adhering.new SRP_adhering.BirdMovement [];;
           SRP_adhering.call_method_with (VRef movement) "move" []) ha
  = Raise (TypeError BadArity) /\
  outcome (SRP_adhering.new SRP_adhering.BirdSound [bird]) ha
  = Raise (TypeError BadArity) /\
  outcome (SRP_adhering.new SRP_adhering.BirdMovement [bird]) ha
  = Raise (TypeError BadArity) /\
  outcome (b <- SRP_adhering.new SRP_adhering.Bird [VStr n];;
           SRP_adhering.call_method_with (VRef b) "make_sound" []) ha
  = Raise (AttributeError "Bird" "make_sound") /\
  outcome (b <- SRP_adhering.new SRP_adhering.Bird [VStr n];;
           SRP_adhering.call_method_with (VRef b) "move" []) ha
  = Raise (AttributeError "Bird" "move") /\
  outcome (b <- SRP_violating.new SRP_violating.Bird [VStr n];;
           SRP_violating.call_method (VRef b) "make_sound") hv
  = Ok VNone /\
  outcome (b <- SRP_violating.new SRP_violating.Bird [VStr n];;
           SRP_violating.call_method (VRef b) "move") hv
  = Ok VNone.
Proof.
  assert (Nb : SRP_adhering.new SRP_adhering.Bird [VStr n] ha
            = (Ok (fresh (dom ha)),
               <[fresh (dom ha) := entity SRP_adhering.Bird (VStr n)]> ha)).
  { apply new_stores; [done|done|]. intros l h' Hl. by apply setattr_fresh. }
  assert (Hinit : forall l h', h' !! l = Some (Obj SRP_violating.Bird ∅) ->
            SRP_violating.init SRP_violating.Bird l [VStr n] h'
            = (Ok tt, <[l := entity SRP_violating.Bird (VStr n)]> h')).
  { intros l h' Hl. by apply setattr_fresh. }
  set (h1 := <[fresh (dom ha) := entity SRP_adhering.Bird (VStr n)]> ha) in Nb.
  assert (Hl : h1 !! fresh (dom ha) = Some (entity SRP_adhering.Bird (VStr n)))
    by apply lookup_insert_eq.
  unfold outcome.
  split; [|split; [|split; [|split; [|split; [|split; [|split; [|split; [|split]]]]]]]].
  - by rewrite (SRP_adhering_helper_call SRP_adhering.BirdSound "make_sound"
                  SRP_adhering.BirdSound_make_sound [bird] ha (or_introl eq_refl)).
  - by rewrite (SRP_adhering_helper_call SRP_adhering.BirdMovement "move"
                  SRP_adhering.BirdMovement_move [bird] ha (or_intror eq_refl)).
  - by rewrite (SRP_adhering_helper_call SRP_adhering.BirdSound "make_sound"
                  SRP_adhering.BirdSound_make_sound [] ha (or_introl eq_refl)).
  - by rewrite (SRP_adhering_helper_call SRP_adhering.BirdMovement "move"
                  SRP_adhering.BirdMovement_move [] ha (or_intror eq_refl)).
  - unfold SRP_adhering.new. by rewrite new_excess.
  - unfold SRP_adhering.new. by rewrite new_excess.
  - rewrite (bind_ok _ _ _ _ _ Nb). unfold SRP_adhering.call_method_with.
    by rewrite (call_method_with_missing _ _ _ h1 _ SRP_adhering.Bird
                  {[ "name" := VStr n ]} "make_sound" [] Hl).
  - rewrite (bind_ok _ _ _ _ _ Nb). unfold SRP_adhering.call_method_with.
    by rewrite (call_method_with_missing _ _ _ h1 _ SRP_adhering.Bird
                  {[ "name" := VStr n ]} "move" [] Hl).
  - unfold SRP_violating.new, SRP_violating.call_method.
    by rewrite (new_then_call _ _ _ _ _ _ hv SRP_violating.Bird _ "make_sound"
                  SRP_violating.Bird_make_sound eq_refl eq_refl Hinit).
  - unfold SRP_violating.new, SRP_violating.call_method.
    by rewrite (new_then_call _ _ _ _ _ _ hv SRP_violating.Bird _ "move"
                  SRP_violating.Bird_move eq_refl eq_refl Hinit).
Qed.
